(** * NetworkConnectionMonitor: the node connection health-check scheduler

    A shallow embedding of class [NetworkConnectionMonitor] of
    [professional_multitheme_launcher_v2.py] (lines 1611-1771) and the
    properties of its probe, batcher, store and in-progress guard.

    Conventions of the embedding.
    - Python [int] is [Z]; [time.time()] and [datetime.now()] return a
      reading of the wall clock, a rational number of seconds; [int(x)] on a
      float truncates toward zero ([Z.quot]).
    - A node of [master_config.json] is a dictionary from field names to
      strings ([gmap string string], the Node of the data model).
    - The operating system is an environment [env]: the successive clock
      readings, the outcome of every connection attempt and whether a
      thread can be started.
    - [self.health_data] is a dictionary object holding references to record
      objects; [dict.copy()] allocates a new dictionary that shares them.
    - An exception is the string [str(e)] of its message. *)

From Stdlib Require Import QArith Lqa.
From stdpp Require Import gmap strings list fin_maps pretty sorting.

Open Scope Z_scope.

(** ** Values *)

(** [result A] is the outcome of a call that may raise. *)
Inductive result (A : Type) : Type :=
  | Ok (a : A)
  | Exn (msg : string).
Arguments Ok {A} a.
Arguments Exn {A} msg.

Inductive status : Set := Healthy | Unhealthy | Error.

#[global] Instance status_eq_dec : EqDecision status.
Proof. solve_decision. Defined.

(** The dictionary written at lines 1700-1706 and 1709-1713. *)
Module HealthRecord.
Record t : Type := mk {
  ip : string;
  type : string;
  status : status;
  response_time : Z;
  last_check : Q;
  recommendation : string
}.
End HealthRecord.

Abbreviation node := (gmap string string).
Abbreviation loc := positive.

(** ** Clock and network *)

(** [int(q)] for a float [q]: truncation toward zero. *)
Definition Qtrunc (q : Q) : Z := Z.quot (Qnum q) (Z.pos (Qden q)).

(** [int((time.time() - start_time) * 1000)]. *)
Definition ms_since (start_time now : Q) : Z :=
  Qtrunc ((now - start_time) * (1000 # 1))%Q.

(** Lines 1729-1732 for one port: [connect_ex] returned [code], or one of
    [socket.socket], [settimeout], [connect_ex], [close] raised. *)
Inductive attempt : Type :=
  | Returned (code : Z)
  | Raised (msg : string).

Record env : Type := Env {
  clock : nat -> Q;
  net : nat -> string -> Z -> Z -> attempt;
  can_start : nat -> bool
}.

(** What the worker threads observe and change outside the monitor: how many
    clock readings were taken and which connections were attempted
    (host, port, socket timeout). *)
Record world : Type := World {
  ticks : nat;
  conn_log : list (string * Z * Z)
}.

Definition time_time (E : env) (w : world) : Q * world :=
  (clock E (ticks w), World (S (ticks w)) (conn_log w)).

Definition try_port (E : env) (host : string) (port timeout : Z) (w : world)
  : attempt * world :=
  (net E (length (conn_log w)) host port timeout,
   World (ticks w) (conn_log w ++ [(host, port, timeout)])).

(** ** [_check_connectivity] (lines 1715-1745) *)

Definition test_ports (node_type : string) : list Z :=
  if String.eqb node_type "ssh" then [22]
  else if String.eqb node_type "telnet" then [23]
  else [22; 23].

(** The [for port in test_ports] loop. [response_time] is the local variable
    of that name, unbound ([None]) until line 1740 has run once. The loop
    either returns from inside ([inl]) or runs to its end ([inr]). *)
Fixpoint probe_loop (E : env) (start_time : Q) (host : string) (timeout : Z)
    (ports : list Z) (response_time : option Z) (w : world)
  : (bool * Z + option Z) * world :=
  match ports with
  | [] => (inr response_time, w)
  | port :: rest =>
      let '(a, w1) := try_port E host port timeout w in
      match a with
      | Raised _ => probe_loop E start_time host timeout rest response_time w1
      | Returned code =>
          if code =? 0 then
            let '(now, w2) := time_time E w1 in
            (inl (true, Z.max (ms_since start_time now) 1), w2)
          else
            let '(now, w2) := time_time E w1 in
            probe_loop E start_time host timeout rest
              (Some (ms_since start_time now)) w2
      end
  end.

(** After the loop, [return False, response_time] raises [UnboundLocalError]
    when the variable was never assigned; the handler at line 1743 then
    reads the clock and returns. *)
Definition _check_connectivity (E : env) (host node_type : string)
    (timeout : Z) (w : world) : result (bool * Z) * world :=
  let '(start_time, w0) := time_time E w in
  match probe_loop E start_time host timeout (test_ports node_type) None w0 with
  | (inl r, w1) => (Ok r, w1)
  | (inr (Some response_time), w1) => (Ok (false, response_time), w1)
  | (inr None, w1) =>
      let '(now, w2) := time_time E w1 in
      (Ok (false, ms_since start_time now), w2)
  end.

(** ** [_get_recommendation] (lines 1747-1761) *)

Definition _get_recommendation (is_healthy : bool) (response_time : Z)
    (node_type : string) : string :=
  if negb is_healthy then
    if String.eqb node_type "ssh"
    then "SSH connection failed - verify SSH service running"
    else if String.eqb node_type "telnet"
    then "Telnet connection failed - verify telnet service running"
    else "Connection failed - verify node is online"
  else if 3000 <? response_time
  then "Very slow response (>3s) - check network performance"
  else if 1000 <? response_time
  then "Slow response (>1s) - monitor network performance"
  else "Good connection - healthy network connectivity".

(** ** The monitor object *)

(** [store] is the dictionary [self.health_data] (the attribute is assigned
    once, in [__init__]); [snapshots] are the dictionaries allocated by
    [dict.copy()]; both hold references into [records]. *)
Record monitor : Type := Monitor {
  store : gmap string loc;
  snapshots : gmap loc (gmap string loc);
  records : gmap loc HealthRecord.t;
  running : bool;
  check_in_progress : bool
}.

(** [__init__] (lines 1614-1618). *)
Definition init : monitor := Monitor ∅ ∅ ∅ true false.

Definition set_check_in_progress (b : bool) (m : monitor) : monitor :=
  Monitor (store m) (snapshots m) (records m) (running m) b.

(** [stop] (line 1626). *)
Definition stop (m : monitor) : monitor :=
  Monitor (store m) (snapshots m) (records m) false (check_in_progress m).

(** [self.health_data[node_name] = {...}]: a new record object is allocated
    and the key is bound to it. *)
Definition store_record (node_name : string) (r : HealthRecord.t)
    (m : monitor) : monitor :=
  let l := fresh (dom (records m)) in
  Monitor (<[node_name := l]> (store m)) (snapshots m)
          (<[l := r]> (records m)) (running m) (check_in_progress m).

(** [get_health_data] (lines 1763-1764): [self.health_data.copy()]. *)
Definition get_health_data (m : monitor) : loc * monitor :=
  let l := fresh (dom (snapshots m)) in
  (l, Monitor (store m) (<[l := store m]> (snapshots m)) (records m)
        (running m) (check_in_progress m)).

(** Reading a dictionary: [d[node_name]], following the reference. *)
Definition read (m : monitor) (d : gmap string loc) (node_name : string)
  : option HealthRecord.t :=
  d !! node_name ≫= λ l, records m !! l.

(** ** [_check_single_node] (lines 1691-1713) *)

Definition lower_ascii (c : Ascii.ascii) : Ascii.ascii :=
  let n := Ascii.nat_of_ascii c in
  if ((65 <=? n) && (n <=? 90))%nat then Ascii.ascii_of_nat (n + 32) else c.

(** [str.lower()] on the ASCII letters. *)
Fixpoint lower (s : string) : string :=
  match s with
  | EmptyString => EmptyString
  | String c rest => String (lower_ascii c) (lower rest)
  end.

Definition probe_fn : Type :=
  env -> string -> string -> Z -> world -> result (bool * Z) * world.

(** The body of the worker, over the probe it calls at line 1698. *)
Definition check_single_node_with (probe : probe_fn) (E : env) (n : node)
    (timeout : Z) (st : monitor * world) : monitor * world :=
  let '(m, w) := st in
  let node_name := default "Unknown" (n !! "name") in
  let ip := default "" (n !! "ip") in
  let node_type := lower (default "unknown" (n !! "type")) in
  match probe E ip node_type timeout w with
  | (Ok (is_healthy, response_time), w1) =>
      let '(now, w2) := time_time E w1 in
      (store_record node_name
         (HealthRecord.mk ip node_type
            (if is_healthy then Healthy else Unhealthy)
            response_time now
            (_get_recommendation is_healthy response_time node_type)) m,
       w2)
  | (Exn e, w1) =>
      let '(now, w2) := time_time E w1 in
      (store_record node_name
         (HealthRecord.mk ip node_type Error 0 now
            ("Connection failed: " +:+ String.substring 0 50 e)) m,
       w2)
  end.

Definition _check_single_node : env -> node -> Z -> monitor * world -> monitor * world :=
  check_single_node_with _check_connectivity.

(** ** The scheduler thread *)

Inductive event : Type :=
  | EvStart (n : node)
  | EvJoin (n : node) (timeout : Z)
  | EvSleep (seconds : Q).

(** What the scheduler thread changes outside the monitor: the number of
    threads it started, its own calls to [thread.start], [thread.join] and
    [time.sleep], and its calls to [log_message] (category, message). *)
Record sched : Type := Sched {
  started : nat;
  sched_log : list event;
  log_file : list (string * string)
}.

Definition log_message (message log_type : string) (h : sched) : sched :=
  Sched (started h) (sched_log h) (log_file h ++ [(log_type, message)]).

Definition emit (evs : list event) (h : sched) : sched :=
  Sched (started h) (sched_log h ++ evs) (log_file h).

Abbreviation state := (monitor * world * sched)%type.

(** What [master_config.json] holds when a cycle reads it: no file; a file
    on which [open], [json.load] or [config.get] raises; or a JSON object,
    with its [nodes] array if it has one. *)
Inductive config_file : Type :=
  | NoFile
  | LoadError (msg : string)
  | Config (nodes : option (list node)).

(** [range(0, stop, step)] for [0 <= stop]. *)
Definition range0 (stop step : Z) : result (list Z) :=
  if step =? 0 then Exn "range() arg 3 must not be zero"
  else if step <? 0 then Ok []
  else Ok (map (λ k : nat, Z.of_nat k * step)
             (seq 0 (Z.to_nat ((stop + step - 1) / step)))).

(** [nodes[i:j]] for [0 <= i <= j]. *)
Definition slice {A : Type} (l : list A) (i j : Z) : list A :=
  take (Z.to_nat (j - i)) (drop (Z.to_nat i) l).

(** The batches of line 1668-1669. *)
Definition batches {A : Type} (nodes : list A) (max_concurrent : Z)
  : result (list (list A)) :=
  match range0 (Z.of_nat (length nodes)) max_concurrent with
  | Exn e => Exn e
  | Ok starts => Ok (map (λ i, slice nodes i (i + max_concurrent)) starts)
  end.

(** Lines 1672-1679. A started worker is run to completion at once: the
    schedule in which workers finish in the order they were started. *)
Fixpoint start_threads (E : env) (timeout : Z) (batch : list node)
    (st : state) : result unit * state :=
  match batch with
  | [] => (Ok tt, st)
  | n :: rest =>
      let '(m, w, h) := st in
      if can_start E (started h) then
        let '(m1, w1) := _check_single_node E n timeout (m, w) in
        start_threads E timeout rest
          (m1, w1, Sched (S (started h)) (sched_log h ++ [EvStart n]) (log_file h))
      else (Exn "can't start new thread", st)
  end.

(** Lines 1681-1684: the joins of a batch and the pause after it. *)
Definition join_and_pause (timeout : Z) (batch : list node) : list event :=
  map (λ n, EvJoin n (timeout + 1)) batch ++ [EvSleep (1 # 10)%Q].

Fixpoint run_batches (E : env) (timeout : Z) (bs : list (list node))
    (st : state) : result unit * state :=
  match bs with
  | [] => (Ok tt, st)
  | batch :: rest =>
      match start_threads E timeout batch st with
      | (Exn e, st1) => (Exn e, st1)
      | (Ok _, (m1, w1, h1)) =>
          run_batches E timeout rest (m1, w1, emit (join_and_pause timeout batch) h1)
      end
  end.

(** The [try] block of [_check_connections_safely] (lines 1653-1684). *)
Definition cycle_body (E : env) (cfg : config_file)
    (app_settings : gmap string Z) (st : state) : result unit * state :=
  match cfg with
  | NoFile => (Ok tt, st)
  | LoadError e => (Exn e, st)
  | Config config_nodes =>
      let nodes := default [] config_nodes in
      match nodes with
      | [] => (Ok tt, st)
      | _ :: _ =>
          let max_concurrent := default 3 (app_settings !! "max_concurrent_checks") in
          let timeout := default 2 (app_settings !! "node_timeout") in
          match batches nodes max_concurrent with
          | Exn e => (Exn e, st)
          | Ok bs => run_batches E timeout bs st
          end
      end
  end.

(** [_check_connections_safely] (lines 1645-1689). *)
Definition _check_connections_safely (E : env) (cfg : config_file)
    (app_settings : gmap string Z) (st : state) : result unit * state :=
  let '(m, w, h) := st in
  if check_in_progress m then (Ok tt, st)
  else
    match cycle_body E cfg app_settings (set_check_in_progress true m, w, h) with
    | (Ok _, (m1, w1, h1)) => (Ok tt, (set_check_in_progress false m1, w1, h1))
    | (Exn e, (m1, w1, h1)) =>
        (Ok tt, (set_check_in_progress false m1, w1,
                 log_message ("Safe connection check error: " +:+ e) "ERROR" h1))
    end.



(** ** The in-progress guard under thread interleaving

    Every thread that calls [_check_connections_safely] is at one of its
    program points; another thread may run between any two of them. *)
Module Guard.

Inductive pc : Set :=
  | Outside     (* not inside the function *)
  | AtGuard     (* about to test the flag, line 1647 *)
  | AtSet       (* test passed, about to set the flag, line 1650 *)
  | InCycle     (* in the try block, lines 1652-1687 *)
  | AtFinally.  (* about to clear the flag, line 1689 *)

#[global] Instance pc_eq_dec : EqDecision pc.
Proof. solve_decision. Defined.

(** [loop_thread] is the thread of [_monitor_loop]; [threads] are the
    threads started by [start] (line 1623) and by [force_check]. *)
Record pool : Type := Pool {
  check_in_progress : bool;
  loop_thread : pc;
  threads : list pc
}.

(** The pool after [__init__] and [start] (lines 1620-1623). *)
Definition after_start : pool := Pool false Outside [AtGuard].

(** One program point of [_check_connections_safely]. With [atomic] the
    test and the set of the flag are one step. *)
Definition step_pc (atomic : bool) (flag : bool) (p : pc) : bool * pc :=
  match p with
  | Outside => (flag, Outside)
  | AtGuard =>
      if flag then (flag, Outside)
      else if atomic then (true, InCycle) else (flag, AtSet)
  | AtSet => (true, InCycle)
  | InCycle => (flag, AtFinally)
  | AtFinally => (false, Outside)
  end.

(** [force_check] (lines 1766-1771). *)
Definition force_check (p : pool) : bool * pool :=
  if negb (check_in_progress p)
  then (true, Pool (check_in_progress p) (loop_thread p) (threads p ++ [AtGuard]))
  else (false, p).

(** The test of line 1639, made by the loop thread between two sleeps. *)
Definition tick (p : pool) : pool :=
  match loop_thread p with
  | Outside =>
      if negb (check_in_progress p)
      then Pool (check_in_progress p) AtGuard (threads p)
      else p
  | _ => p
  end.

Inductive action : Set :=
  | ForceCheck
  | Tick
  | RunLoop
  | Run (i : nat).

Definition exec (atomic : bool) (p : pool) (a : action) : pool :=
  match a with
  | ForceCheck => snd (force_check p)
  | Tick => tick p
  | RunLoop =>
      let '(f, q) := step_pc atomic (check_in_progress p) (loop_thread p) in
      Pool f q (threads p)
  | Run i =>
      match threads p !! i with
      | Some t =>
          let '(f, q) := step_pc atomic (check_in_progress p) t in
          Pool f (loop_thread p) (<[i := q]> (threads p))
      | None => p
      end
  end.

Definition run (atomic : bool) (acts : list action) (p : pool) : pool :=
  foldl (exec atomic) p acts.

Definition in_cycle (p : pc) : bool :=
  match p with
  | InCycle | AtFinally => true
  | _ => false
  end.

Definition cycles_in_progress (p : pool) : nat :=
  length (filter (λ t, in_cycle t = true) (loop_thread p :: threads p)).

(** What one thread adds to [cycles_in_progress]. *)
Definition weight (t : pc) : nat := if in_cycle t then 1 else 0.

End Guard.

(** ** Vocabulary of the statements *)

(** [t] is [x] with its fractional part dropped, what [int(x)] is for a
    float [x]: the integer next to [x] on the side of 0. *)
Definition truncation (x : Q) (t : Z) : Prop :=
  ((0 <= x)%Q → (inject_Z t <= x)%Q ∧ (x < inject_Z t + 1)%Q)
  ∧ ((x <= 0)%Q → (x <= inject_Z t)%Q ∧ (inject_Z t - 1 < x)%Q).

(** The milliseconds between two readings of the clock, as a rational. *)
Definition elapsed_ms (start_time now : Q) : Q :=
  ((now - start_time) * (1000 # 1))%Q.


(** A connection attempt succeeds when [connect_ex] returns 0 (line 1734). *)
Definition connects (a : attempt) : bool :=
  match a with
  | Returned code => code =? 0
  | Raised _ => false
  end.

(** The outcome of the [j]-th attempt of a probe that begins in world [w]. *)
Definition attempt_at (E : env) (host : string) (timeout : Z) (w : world)
    (j : nat) (port : Z) : attempt :=
  net E (length (conn_log w) + j)%nat host port timeout.

(** The connection attempts of a probe on [ports], as [conn_log] has them. *)
Definition attempted (host : string) (timeout : Z) (ports : list Z)
  : list (string * Z * Z) :=
  map (λ port, (host, port, timeout)) ports.

(** The fields of a node as lines 1693-1695 read them. *)
Definition name_of (n : node) : string := default "Unknown" (n !! "name").
Definition ip_of (n : node) : string := default "" (n !! "ip").
Definition type_of (n : node) : string := lower (default "unknown" (n !! "type")).

(** The workers of [nodes], each run to completion, in list order. *)
Definition run_workers (E : env) (timeout : Z) (nodes : list node)
    (st : monitor * world) : monitor * world :=
  foldl (λ st n, _check_single_node E n timeout st) st nodes.

(** Every candidate port of the node is tried and [connect_ex] returns an
    error code: the connection is refused, times out or has no route. *)
Definition refused (E : env) (n : node) (timeout : Z) (w : world) : Prop :=
  ∀ (j : nat) p, test_ports (type_of n) !! j = Some p →
    ∃ code, code ≠ 0 ∧ attempt_at E (ip_of n) timeout w j p = Returned code.

(** Every attempt on a candidate port of the node raises. *)
Definition raising (E : env) (n : node) (timeout : Z) (w : world) : Prop :=
  ∀ (j : nat) p, test_ports (type_of n) !! j = Some p →
    ∃ msg, attempt_at E (ip_of n) timeout w j p = Raised msg.

(** The record under the node's name once its worker has run. *)
Definition record_after (E : env) (n : node) (timeout : Z) (m : monitor)
    (w : world) : option HealthRecord.t :=
  let m' := fst (_check_single_node E n timeout (m, w)) in
  read m' (store m') (name_of n).


(** The guard holds its promise in a pool when the flag is set exactly while
    one thread is in a cycle and no thread stands between the test and the
    set of the flag. *)
Definition guard_inv (p : Guard.pool) : Prop :=
  Guard.cycles_in_progress p = (if Guard.check_in_progress p then 1 else 0)%nat
  ∧ Forall (λ t, t ≠ Guard.AtSet) (Guard.loop_thread p :: Guard.threads p).

(** A manual check requested at the moment of a scheduled one: the loop
    thread tests the flag, [force_check] is called and starts thread 1,
    thread 1 tests the flag, and only then do both set it. Thread 0, the
    immediate check of [start], has not run yet. *)
Definition racing_schedule : list Guard.action :=
  [Guard.Tick; Guard.RunLoop; Guard.ForceCheck; Guard.Run 1; Guard.RunLoop;
   Guard.Run 1].

(** ** Environments and nodes of the examples *)

(** A clock that advances 0.2 ms between two readings. *)
Definition fast_clock (k : nat) : Q := ((100 # 1) + (Z.of_nat k # 5000))%Q.

(** Every connection is refused at once ([ECONNREFUSED] is 111). *)
Definition env_refusing : env :=
  Env fast_clock (λ _ _ _ _, Returned 111) (λ _, true).

(** Every host name fails to resolve: [connect_ex] raises [gaierror]. *)
Definition env_unresolved : env :=
  Env fast_clock (λ _ _ _ _, Raised "[Errno -2] Name or service not known")
      (λ _, true).

(** Every connection is accepted. *)
Definition env_open : env :=
  Env fast_clock (λ _ _ _ _, Returned 0) (λ _, true).

(** Port 22 is refused and port 23 accepts. *)
Definition env_telnet_only : env :=
  Env fast_clock (λ _ _ port _, if port =? 23 then Returned 0 else Returned 111)
      (λ _, true).

(** A clock that advances a quarter of a second between two readings. *)
Definition slow_clock (k : nat) : Q := ((100 # 1) + (Z.of_nat k # 4))%Q.

(** Every connection times out ([ETIMEDOUT] is 110). *)
Definition env_timing_out : env :=
  Env slow_clock (λ _ _ _ _, Returned 110) (λ _, true).


Definition R1 : node :=
  {[ "name" := "R1"; "ip" := "127.0.0.1"; "type" := "ssh" ]}.
Definition R2 : node :=
  {[ "name" := "R2"; "ip" := "core-sw.invalid"; "type" := "SSH" ]}.
Definition nameless (ip : string) : node := {[ "ip" := ip ]}.

Definition seven_nodes : list node :=
  [R1; R2; nameless "10.0.0.3"; nameless "10.0.0.4"; nameless "10.0.0.5";
   nameless "10.0.0.6"; nameless "10.0.0.7"].

Definition w0 : world := World 0 [].
Definition h0 : sched := Sched 0 [] [].


(** ** Further vocabulary *)

(** The nodes a cycle reads from the configuration (line 1660). *)
Definition configured (cfg : config_file) : list node :=
  match cfg with
  | Config config_nodes => default [] config_nodes
  | _ => []
  end.

(** [m'] has everything [m] has: the copies handed out are the same
    dictionaries, every record object is still there and unchanged, every
    name of the store is still bound, and the two flags are as they were. *)
Definition extends (m m' : monitor) : Prop :=
  snapshots m' = snapshots m
  ∧ records m ⊆ records m'
  ∧ dom (store m) ⊆ dom (store m')
  ∧ running m' = running m
  ∧ check_in_progress m' = check_in_progress m.

(** A record as lines 1700-1706 build it: it is Healthy with a response time
    of at least 1 or Unhealthy, and its recommendation is the one of its
    status, response time and type. *)
Definition coherent (r : HealthRecord.t) : Prop :=
  match HealthRecord.status r with
  | Healthy =>
      1 ≤ HealthRecord.response_time r
      ∧ HealthRecord.recommendation r
        = _get_recommendation true (HealthRecord.response_time r) (HealthRecord.type r)
  | Unhealthy =>
      HealthRecord.recommendation r
      = _get_recommendation false (HealthRecord.response_time r) (HealthRecord.type r)
  | Error => False
  end.


(** ** The connection display: [update_connection_display] (lines 5689-5741) *)
Module Display.

Record tally : Type := Tally {
  healthy_nodes : Z;
  unhealthy_nodes : Z;
  total_response_time : Z
}.

(** The body of the loop over [health_data.items()] (lines 5701-5716), as
    far as it counts. *)
Definition count_node (t : tally) (node_info : HealthRecord.t) : tally :=
  match HealthRecord.status node_info with
  | Healthy =>
      Tally (healthy_nodes t + 1) (unhealthy_nodes t)
        (total_response_time t + HealthRecord.response_time node_info)
  | _ => Tally (healthy_nodes t) (unhealthy_nodes t + 1) (total_response_time t)
  end.

Definition tally_nodes (items : list (string * HealthRecord.t)) : tally :=
  foldl (λ t item, count_node t (snd item)) (Tally 0 0 0) items.

(** [total_nodes] (line 5732). *)
Definition total_nodes (t : tally) : Z := healthy_nodes t + unhealthy_nodes t.

(** [sum(1 for n in health_data.values() if ...)] (lines 5745-5747). *)
Definition count_if (P : HealthRecord.t → bool)
    (items : list (string * HealthRecord.t)) : Z :=
  foldr (λ item n, if P (snd item) then 1 + n else n) 0 items.

Definition ssh_nodes : list (string * HealthRecord.t) → Z :=
  count_if (λ n, String.eqb (HealthRecord.type n) "ssh").
Definition telnet_nodes : list (string * HealthRecord.t) → Z :=
  count_if (λ n, String.eqb (HealthRecord.type n) "telnet").
Definition error_nodes : list (string * HealthRecord.t) → Z :=
  count_if (λ n, bool_decide (HealthRecord.status n = Error)).

(** The response times of the Healthy records, added up. *)
Definition healthy_response_sum (items : list (string * HealthRecord.t)) : Z :=
  foldr (λ item n,
           if bool_decide (HealthRecord.status (snd item) = Healthy)
           then HealthRecord.response_time (snd item) + n else n) 0 items.

(** The display shows statistics unless the mapping is empty (line 5691). *)
Definition statistics (items : list (string * HealthRecord.t)) : option tally :=
  match items with
  | [] => None
  | _ :: _ => Some (tally_nodes items)
  end.

End Display.


(** ** [ProcessManager] (lines 1777-1898)

    The manager tracks the scripts it launched in the dictionary
    [processes], under a lock. A [Popen] object is its process id. *)
Module ProcessManager.

Inductive proc_status : Set := Running | Finished.

(** The dictionary kept per script key (lines 1802-1805). *)
Record info : Type := Info {
  name : string;
  file : string;
  started : Q;
  pid : Z;
  status : proc_status
}.

(** [os.kill(pid, SIGKILL)]: the signal is sent, or [ProcessLookupError], or
    another exception. *)
Inductive signal_result : Type :=
  | Delivered
  | NoSuchProcess
  | SignalError (msg : string).

(** The operating system as the manager meets it: the platform, whether a
    script file exists under [BASE_DIR], what the [n]-th [Popen] gives (a
    process id or an exception), whether a process exits within the second
    after [terminate], what [os.kill] does, and the clock. *)
Record os : Type := Os {
  windows : bool;
  file_exists : string → bool;
  popen : nat → string → result Z;
  obeys_terminate : Z → bool;
  os_kill : Z → signal_result;
  now : nat → Q
}.

(** [alive] are the launched processes that have not exited, those on which
    [poll()] returns [None]. [lock_held] says that the calling thread holds
    [process_lock] already: [threading.Lock] is not reentrant, so a [with]
    on it then never returns. *)
Record manager : Type := Manager {
  processes : gmap string info;
  lock_held : bool;
  alive : gset Z;
  launched : nat;
  clock_reads : nat;
  log : list (string * string)
}.

(** [__init__] (lines 1780-1782). *)
Definition init : manager := Manager ∅ false ∅ 0 0 [].

(** A call returns, raises, or waits for ever for [process_lock]. *)
Inductive outcome (A : Type) : Type :=
  | Returns (a : A) (m : manager)
  | Raises (msg : string) (m : manager)
  | Blocks.
Arguments Returns {A} a m.
Arguments Raises {A} msg m.
Arguments Blocks {A}.

Definition add_log (log_type message : string) (m : manager) : manager :=
  Manager (processes m) (lock_held m) (alive m) (launched m) (clock_reads m)
          (log m ++ [(log_type, message)]).

Definition set_lock (b : bool) (m : manager) : manager :=
  Manager (processes m) b (alive m) (launched m) (clock_reads m) (log m).

(** The handler of [launch_script] (lines 1808-1811). It reads
    [script_info['name']] again, outside any [try]. *)
Definition launch_failed (script_info : gmap string string) (e : string)
    (m : manager) : outcome (bool * string) :=
  match script_info !! "name" with
  | None => Raises "'name'" m
  | Some script_name =>
      let error_msg := "Failed to launch " +:+ script_name +:+ ": " +:+ e in
      Returns (false, error_msg) (add_log "ERROR" error_msg m)
  end.

(** [launch_script] (lines 1784-1811). *)
Definition launch_script (O : os) (script_key : string)
    (script_info : gmap string string) (m : manager) : outcome (bool * string) :=
  match script_info !! "file" with
  | None => launch_failed script_info "'file'" m
  | Some script_file =>
      match script_info !! "name" with
      | None => launch_failed script_info "'name'" m
      | Some script_name =>
          if negb (file_exists O script_file)
          then Returns (false, "Script file not found: " +:+ script_file) m
          else
            match popen O (launched m) script_file with
            | Exn e =>
                launch_failed script_info e
                  (Manager (processes m) (lock_held m) (alive m)
                     (S (launched m)) (clock_reads m) (log m))
            | Ok p =>
                if lock_held m then Blocks
                else
                  let message :=
                    "Launched " +:+ script_name +:+ " (PID: " +:+ pretty p +:+ ")" in
                  Returns (true, message)
                    (Manager
                       (<[script_key :=
                            Info script_name script_file (now O (clock_reads m))
                              p Running]> (processes m))
                       false ({[p]} ∪ alive m) (S (launched m))
                       (S (clock_reads m))
                       (log m ++ [("LAUNCH", message)]))
            end
      end
  end.

(** [kill_process] (lines 1813-1845). *)
Definition kill_process (O : os) (script_key : string) (m : manager)
  : outcome (bool * string) :=
  if lock_held m then Blocks
  else
    match processes m !! script_key with
    | None => Returns (false, "Process not found") m
    | Some process_info =>
        let p := pid process_info in
        let killed :=
          let message :=
            "Killed " +:+ name process_info +:+ " (PID: " +:+ pretty p +:+ ")" in
          Returns (true, message)
            (Manager (delete script_key (processes m)) false (alive m ∖ {[p]})
               (launched m) (clock_reads m) (log m ++ [("STOP", message)])) in
        if bool_decide (p ∈ alive m) then
          if obeys_terminate O p then killed
          else if windows O then killed
          else
            match os_kill O p with
            | Delivered | NoSuchProcess => killed
            | SignalError e =>
                let error_msg := "Error killing process: " +:+ e in
                Returns (false, error_msg)
                  (Manager (processes m) false (alive m ∖ {[p]}) (launched m)
                     (clock_reads m) (log m ++ [("ERROR", error_msg)]))
            end
        else killed
    end.

(** [get_processes] (lines 1881-1888). *)
Definition refresh (alive : gset Z) (proc_info : info) : info :=
  if bool_decide (pid proc_info ∈ alive) then proc_info
  else Info (name proc_info) (file proc_info) (started proc_info)
         (pid proc_info) Finished.

Definition get_processes (m : manager) : outcome (gmap string info) :=
  if lock_held m then Blocks
  else
    let processes' := refresh (alive m) <$> processes m in
    Returns processes'
      (Manager processes' false (alive m) (launched m) (clock_reads m) (log m)).

(** The loop of [kill_all] (lines 1894-1897). *)
Fixpoint kill_each (O : os) (keys : list string) (count : Z) (m : manager)
  : outcome Z :=
  match keys with
  | [] => Returns count m
  | script_key :: rest =>
      match kill_process O script_key m with
      | Returns (success, _) m' =>
          kill_each O rest (if success then count + 1 else count) m'
      | Raises e m' => Raises e m'
      | Blocks => Blocks
      end
  end.

(** [kill_all] (lines 1890-1898): the loop runs with the lock held. *)
Definition kill_all (O : os) (m : manager) : outcome Z :=
  if lock_held m then Blocks
  else
    match kill_each O (fst <$> map_to_list (processes m)) 0 (set_lock true m) with
    | Returns count m' => Returns count (set_lock false m')
    | Raises e m' => Raises e (set_lock false m')
    | Blocks => Blocks
    end.

End ProcessManager.


(** ** [SystemMonitor] (lines 599-877): what it derives from its readings

    A reading is a Python number, an [int] or a [float]; it is a rational
    here, and its comparisons with the integer thresholds are exact. *)
Module SystemMonitor.

(** [a < b] on readings. *)
Definition Qlt_bool (a b : Q) : bool := negb (Qle_bool b a).

(** The entries of [self.data] that the two functions read. *)
Record data : Type := Data {
  cpu_percent : Q;
  memory_percent : Q;
  user_disk_usage : Q
}.

Inductive level : Set := excellent | good | warning | critical.

Record explanation : Type := Explanation {
  status : level;
  meaning : string;
  color : string
}.

(** [_generate_explanations] (lines 642-667). *)
Definition _generate_explanations (d : data) : gmap string explanation :=
  let explanations : gmap string explanation := ∅ in
  let cpu := cpu_percent d in
  let explanations :=
    if Qlt_bool cpu (30 # 1)
    then <["cpu" := Explanation excellent "CPU running smoothly" "metric_good"]> explanations
    else if Qlt_bool cpu (60 # 1)
    then <["cpu" := Explanation good "CPU usage moderate" "metric_good"]> explanations
    else if Qlt_bool cpu (80 # 1)
    then <["cpu" := Explanation warning "CPU usage high" "metric_warning"]> explanations
    else <["cpu" := Explanation critical "CPU usage very high" "metric_critical"]> explanations in
  let memory := memory_percent d in
  if Qlt_bool memory (50 # 1)
  then <["memory" := Explanation excellent "Memory usage low" "metric_good"]> explanations
  else if Qlt_bool memory (75 # 1)
  then <["memory" := Explanation good "Memory usage moderate" "metric_good"]> explanations
  else if Qlt_bool memory (90 # 1)
  then <["memory" := Explanation warning "Memory usage high" "metric_warning"]> explanations
  else <["memory" := Explanation critical "Memory usage very high" "metric_critical"]> explanations.

Record suggestion : Type := Suggestion {
  issue : string;
  action : string;
  priority : string;
  suggestion_color : string
}.

(** [_generate_improvements] (lines 829-857). *)
Definition _generate_improvements (current_user : string) (d : data)
  : list suggestion :=
  let suggestions : list suggestion := [] in
  let suggestions :=
    if Qlt_bool (80 # 1) (cpu_percent d)
    then suggestions ++ [Suggestion "High CPU Usage" "Close unused applications"
                           "HIGH" "#dc2626"]
    else suggestions in
  let suggestions :=
    if Qlt_bool (85 # 1) (memory_percent d)
    then suggestions ++ [Suggestion "High Memory Usage"
                           "Restart applications, clear cache" "HIGH" "#dc2626"]
    else suggestions in
  let suggestions :=
    if Qlt_bool (80 # 1) (user_disk_usage d)
    then suggestions ++ [Suggestion "High User Directory Usage"
                           ("Clean files in /users/" +:+ current_user +:+ "/")
                           "MEDIUM" "#f59e0b"]
    else suggestions in
  match suggestions with
  | [] => [Suggestion "System Healthy" "All metrics within optimal ranges"
             "GOOD" "#059669"]
  | _ :: _ => suggestions
  end.

(** How bad a level is. *)
Definition severity (l : level) : nat :=
  match l with
  | excellent => 0
  | good => 1
  | warning => 2
  | critical => 3
  end.

(** A file met by [os.walk]: its full path and what [os.path.getsize] gives,
    [None] when it raises. *)
Definition walked : Type := (string * option Z)%type.

Record large_file : Type := LargeFile {
  path : string;
  size_mb : Q;
  full_path : string
}.

(** [list.sort(key=lambda x: x[1], reverse=True)]: the sort is stable, so an
    element goes in after the elements that are at least as large. *)
Fixpoint insert_by_size (x : string * Z) (sorted : list (string * Z))
  : list (string * Z) :=
  match sorted with
  | [] => [x]
  | y :: rest =>
      if snd y <? snd x then x :: y :: rest
      else y :: insert_by_size x rest
  end.

Definition sort_by_size (file_sizes : list (string * Z)) : list (string * Z) :=
  foldl (λ sorted x, insert_by_size x sorted) [] file_sizes.

(** The files of more than 1 MB, in the order of the walk (lines 724-732). *)
Definition over_1mb (files : list walked) : list (string * Z) :=
  omap (λ f : walked,
          match snd f with
          | Some size => if 1024 * 1024 <? size then Some (fst f, size) else None
          | None => None
          end) files.

(** [_get_largest_files] (lines 717-742), over the files of the walk, [None]
    when the user directory does not exist, and [os.path.relpath]. *)
Definition _get_largest_files (relpath : string → string)
    (walk : option (list walked)) : list large_file :=
  match walk with
  | None => []
  | Some files =>
      (λ f : string * Z,
         LargeFile (relpath (fst f)) (snd f # 1048576) (fst f))
      <$> take 15 (sort_by_size (over_1mb files))
  end.

(** What [os.statvfs] returns. These are the attributes that Python's
    [os.statvfs_result] has. *)
Record statvfs_result : Type := StatVfs {
  f_bsize : Z;
  f_frsize : Z;
  f_blocks : Z;
  f_bfree : Z;
  f_bavail : Z;
  f_files : Z;
  f_ffree : Z;
  f_favail : Z;
  f_flag : Z;
  f_namemax : Z;
  f_fsid : Z
}.

Definition attributes (r : statvfs_result) : gmap string Z :=
  list_to_map
    [("f_bsize", f_bsize r); ("f_frsize", f_frsize r);
     ("f_blocks", f_blocks r); ("f_bfree", f_bfree r);
     ("f_bavail", f_bavail r); ("f_files", f_files r);
     ("f_ffree", f_ffree r); ("f_favail", f_favail r);
     ("f_flag", f_flag r); ("f_namemax", f_namemax r);
     ("f_fsid", f_fsid r)].

(** [r.name]: an attribute that the object does not have raises
    [AttributeError]. *)
Definition getattr (r : statvfs_result) (name : string) : result Z :=
  match attributes r !! name with
  | Some v => Ok v
  | None => Exn "AttributeError"
  end.

Definition and_then {A B : Type} (r : result A) (f : A → result B)
  : result B :=
  match r with
  | Ok a => f a
  | Exn e => Exn e
  end.

(** [_get_disk_usage] (lines 788-799), over [platform.system()] and what
    [os.statvfs('/')] does. The body of the [try] gives [Some] when it
    returns a reading and [None] when it falls through; an exception and a
    fall through both end in [return 35.0]. The quotient is taken over the
    rationals. *)
Definition _get_disk_usage (platform_system : string)
    (statvfs_root : result statvfs_result) : Q :=
  let body : result (option Q) :=
    if bool_decide (lower platform_system = "linux") then
      and_then statvfs_root (λ statvfs,
      and_then (getattr statvfs "f_frsize") (λ frsize,
      and_then (getattr statvfs "f_blocks") (λ blocks,
      let total_size := frsize * blocks in
      and_then (getattr statvfs "f_frsize") (λ frsize',
      and_then (getattr statvfs "f_available") (λ available,
      let free_size := frsize' * available in
      let used_size := total_size - free_size in
      if 0 <? total_size
      then Ok (Some (inject_Z used_size / inject_Z total_size * (100 # 1))%Q)
      else Ok None)))))
    else Ok None in
  match body with
  | Ok (Some reading) => reading
  | Ok None | Exn _ => 35 # 1
  end.

(** What [subprocess.run(['du', '-sb', user_dir], ...)] gives when it
    returns: the return code, and [int(result.stdout.split()[0])], which
    raises on an output that does not start with a number. *)
Record du_result : Type := Du {
  returncode : Z;
  stdout_size : result Z
}.

(** What [_get_user_disk_usage] asks of the system, call by call. [du] is
    [Exn] when [subprocess.run] raises (no such command, or the timeout of
    10 seconds). [os.walk] skips what it cannot list, and a file whose size
    cannot be read has [None]. *)
Record user_dir : Type := UserDir {
  path_exists : bool;
  du : result du_result;
  statvfs : result statvfs_result;
  path_exists_again : bool;
  walk_files : list walked;
  statvfs_again : result statvfs_result
}.

(** Lines 682-686 and 705-708: the share of [total_size] in [total_size]
    plus the space still available, in percent and at most 100, over the
    rationals. *)
Definition usage_of (total_size : Z) (statvfs : statvfs_result) : Q * Z :=
  let available_space := f_frsize statvfs * f_bavail statvfs in
  let usage_percent : Q :=
    if 0 <? available_space
    then (inject_Z total_size / inject_Z (total_size + available_space)
          * (100 # 1))%Q
    else 0%Q in
  (if Qlt_bool (100 # 1) usage_percent then 100 # 1 else usage_percent,
   total_size).

(** The [try] block of [_get_user_disk_usage] (lines 671-691). *)
Definition du_method (u : user_dir) : result (Q * Z) :=
  if path_exists u then
    and_then (du u) (λ result,
    if returncode result =? 0 then
      and_then (stdout_size result) (λ total_size,
      if 0 <? total_size
      then and_then (statvfs u) (λ statvfs, Ok (usage_of total_size statvfs))
      else Ok (0%Q, 0))
    else Ok (0%Q, 0))
  else Ok (0%Q, 0).

(** The sum of the sizes that could be read (lines 698-704). *)
Definition walk_total (files : list walked) : Z :=
  foldl (λ total_size (f : walked),
           match snd f with
           | Some size => total_size + size
           | None => total_size
           end) 0 files.

(** The fallback in the handler (lines 695-710). *)
Definition walk_method (u : user_dir) : result (Q * Z) :=
  if path_exists_again u then
    let total_size := walk_total (walk_files u) in
    if 0 <? total_size
    then and_then (statvfs_again u)
           (λ statvfs, Ok (usage_of total_size statvfs))
    else Ok (0%Q, 0)
  else Ok (0%Q, 0).

(** [_get_user_disk_usage] (lines 669-715): the usage in percent and the
    size in bytes. *)
Definition _get_user_disk_usage (u : user_dir) : Q * Z :=
  match du_method u with
  | Ok reading => reading
  | Exn _ =>
      match walk_method u with
      | Ok reading => reading
      | Exn _ => (0%Q, 0)
      end
  end.

End SystemMonitor.


(** * Properties *)

(** ** The probe *)

Section Probe.
Context (E : env) (start_time : Q) (host : string) (timeout : Z).

Lemma attempt_at_shift w x j port tk :
  attempt_at E host timeout (World tk (conn_log w ++ [x])) j port
  = attempt_at E host timeout w (S j) port.
Proof.
  unfold attempt_at. simpl. rewrite length_app. simpl.
  f_equal. lia.
Qed.


(** When no port connects the loop tries every port; [response_time] is
    left as it was if every attempt raised, and holds the elapsed time at
    the last attempt that returned otherwise. *)
Lemma probe_loop_no_connect ports : ∀ rt w,
  (∀ (j : nat) p, ports !! j = Some p →
     connects (attempt_at E host timeout w j p) = false) →
  ∃ rt' tk,
    probe_loop E start_time host timeout ports rt w
    = (inr rt', World tk (conn_log w ++ attempted host timeout ports))
    ∧ ((rt' = rt ∧ tk = ticks w)
       ∨ (∃ last : nat, tk = S last ∧ (ticks w ≤ last)%nat
            ∧ rt' = Some (ms_since start_time (clock E last)))).
Proof.
  induction ports as [|p0 rest IH]; intros rt w Hall.
  - exists rt, (ticks w). cbn. rewrite app_nil_r. destruct w; auto.
  - assert (H0 : connects (attempt_at E host timeout w 0 p0) = false)
      by (by apply Hall).
    cbn [probe_loop try_port].
    unfold attempt_at in H0. rewrite Nat.add_0_r in H0.
    destruct (net E _ host p0 timeout) as [code|msg]; cbn in H0.
    + rewrite H0. cbn [time_time ticks conn_log].
      destruct (IH (Some (ms_since start_time (clock E (ticks w))))
                  (World (S (ticks w)) (conn_log w ++ [(host, p0, timeout)])))
        as (rt' & tk & -> & Hcase).
      { intros j p Hp. rewrite attempt_at_shift. by apply Hall. }
      exists rt', tk. cbn in *. split.
      { by rewrite <- app_assoc. }
      right. destruct Hcase as [[-> ->]|(last & -> & Hle & ->)].
      * exists (ticks w). auto.
      * exists last. split; [done|]. split; [lia|done].
    + destruct (IH rt (World (ticks w) (conn_log w ++ [(host, p0, timeout)])))
        as (rt' & tk & -> & Hcase).
      { intros j p Hp. rewrite attempt_at_shift. by apply Hall. }
      exists rt', tk. cbn in *. split.
      { by rewrite <- app_assoc. }
      done.
Qed.
End Probe.



Section CheckConnectivity.
Context (E : env) (host node_type : string) (timeout : Z) (w : world).


Lemma check_connectivity_no_connect :
  (∀ (j : nat) p, test_ports node_type !! j = Some p →
     connects (attempt_at E host timeout w j p) = false) →
  ∃ last : nat,
    _check_connectivity E host node_type timeout w
    = (Ok (false, ms_since (clock E (ticks w)) (clock E last)),
       World (S last) (conn_log w ++ attempted host timeout (test_ports node_type)))
    ∧ (ticks w < last)%nat.
Proof.
  intros Hall. unfold _check_connectivity. cbn [time_time].
  destruct (probe_loop_no_connect E (clock E (ticks w)) host timeout
              (test_ports node_type) None
              (World (S (ticks w)) (conn_log w)))
    as (rt' & tk & -> & Hcase); [done|].
  destruct Hcase as [[-> ->]|(last & -> & Hle & ->)]; cbn in *.
  - exists (S (ticks w)). split; [done|lia].
  - exists last. split; [done|lia].
Qed.

(** The probe returns a pair, whatever the network does. *)
Lemma check_connectivity_returns :
  ∃ is_healthy response_time w',
    _check_connectivity E host node_type timeout w
    = (Ok (is_healthy, response_time), w').
Proof.
  unfold _check_connectivity. cbn [time_time].
  destruct (probe_loop _ _ _ _ _ _ _) as [[[b rt]|[rt|]] w1]; cbn; eauto.
Qed.
End CheckConnectivity.

(** *** Elapsed milliseconds *)

Lemma Qtrunc_truncation (x : Q) : truncation x (Qtrunc x).
Proof.
  destruct x as [a b]. unfold truncation, Qtrunc. cbn [Qnum Qden].
  pose proof (Z.quot_rem' a (Z.pos b)) as Hqr.
  set (q := a ÷ Z.pos b) in *. set (r := Z.rem a (Z.pos b)) in *.
  assert (Hpos : 0 ≤ a → 0 ≤ r < Z.pos b)
    by (intros; apply Z.rem_bound_pos; lia).
  assert (Hneg : a ≤ 0 → - Z.pos b < r ≤ 0).
  { intros. pose proof (Z.rem_bound_abs a (Z.pos b)).
    pose proof (Z.rem_nonpos a (Z.pos b)). lia. }
  clearbody q r. unfold Qle, Qlt. cbn. split; intros Ha; nia.
Qed.

Lemma ms_since_truncation (start_time now : Q) :
  truncation (elapsed_ms start_time now) (ms_since start_time now).
Proof. apply Qtrunc_truncation. Qed.

Lemma inject_Z_lt_succ (a b : Z) : (inject_Z a < inject_Z b + 1)%Q → a ≤ b.
Proof. unfold Qlt, Qplus, inject_Z. cbn. lia. Qed.

(** [int(x)] is one number. *)
Lemma truncation_unique (x : Q) (t t' : Z) :
  truncation x t → truncation x t' → t = t'.
Proof.
  intros [Hp Hn] [Hp' Hn'].
  assert (t ≤ t' ∧ t' ≤ t); [|lia].
  destruct (Qlt_le_dec x 0) as [Hneg|Hpos].
  - destruct (Hn ltac:(lra)) as [H1 H2]. destruct (Hn' ltac:(lra)) as [H1' H2'].
    split; apply inject_Z_lt_succ; lra.
  - destruct (Hp Hpos) as [H1 H2]. destruct (Hp' Hpos) as [H1' H2'].
    split; apply inject_Z_lt_succ; lra.
Qed.

Lemma truncation_bounds (x : Q) (t : Z) :
  truncation x t →
  ((0 <= x)%Q → 0 ≤ t)
  ∧ ((0 <= x)%Q → (x < 1)%Q → t = 0)
  ∧ ((1 <= x)%Q → 1 ≤ t).
Proof.
  intros [Hp _]. split; [|split].
  - intros H0. destruct (Hp H0) as [_ H2].
    apply inject_Z_lt_succ. change (inject_Z 0) with 0%Q. lra.
  - intros H0 H1. destruct (Hp H0) as [H2 H3].
    assert (0 ≤ t)
      by (apply inject_Z_lt_succ; change (inject_Z 0) with 0%Q; lra).
    assert (t ≤ 0); [|lia].
    apply inject_Z_lt_succ. change (inject_Z 0) with 0%Q. lra.
  - intros H1. destruct (Hp ltac:(lra)) as [_ H3].
    apply inject_Z_lt_succ. change (inject_Z 1) with 1%Q. lra.
Qed.



(** ** The health data store *)

Lemma fresh_record_unused (m : monitor) :
  records m !! fresh (dom (records m)) = None.
Proof. apply not_elem_of_dom, is_fresh. Qed.

Lemma fresh_snapshot_unused (m : monitor) :
  snapshots m !! fresh (dom (snapshots m)) = None.
Proof. apply not_elem_of_dom, is_fresh. Qed.

Lemma read_store_record (node_name : string) (r : HealthRecord.t) (m : monitor) :
  let m' := store_record node_name r m in
  read m' (store m') node_name = Some r.
Proof.
  unfold read, store_record. cbn.
  rewrite lookup_insert_eq. cbn. by rewrite lookup_insert_eq.
Qed.

Lemma records_store_record (node_name : string) (r : HealthRecord.t) (m : monitor) :
  records m ⊆ records (store_record node_name r m).
Proof. cbn. apply insert_subseteq, fresh_record_unused. Qed.

(** A record object that can be read is not touched by later writes. *)
Lemma read_after_store_record (d : gmap string loc) (name node_name : string)
    (r r' : HealthRecord.t) (m : monitor) :
  read m d name = Some r →
  read (store_record node_name r' m) d name = Some r.
Proof.
  unfold read. destruct (d !! name) as [l|]; cbn; [|done].
  intros Hl. eapply lookup_weaken; [done|].
  apply (records_store_record node_name r' m).
Qed.

(** C8. Writing a record for a node name replaces the whole record: after
    two writes for one name the name reads as the second record, and the
    second write adds no key. [get_health_data] leaves the store and its
    records as they were and returns a new dictionary with the keys and the
    record objects of the store; a later write to the store changes neither
    that dictionary nor the records it refers to, so it still reads as
    before while the store reads the new record. *)
Theorem health_store_overwrite_and_copy (m : monitor) (node_name : string)
    (r1 r2 r3 : HealthRecord.t) :
  let m1 := store_record node_name r1 m in
  let m2 := store_record node_name r2 m1 in
  let snapshot := fst (get_health_data m2) in
  let m3 := snd (get_health_data m2) in
  let m4 := store_record node_name r3 m3 in
  (read m1 (store m1) node_name = Some r1
   ∧ read m2 (store m2) node_name = Some r2
   ∧ dom (store m2) = dom (store m1)
   ∧ size (store m2) = size (store m1))
  ∧ (store m3 = store m2
     ∧ records m3 = records m2
     ∧ snapshots m2 !! snapshot = None
     ∧ snapshots m3 !! snapshot = Some (store m2))
  ∧ (snapshots m4 !! snapshot = Some (store m2)
     ∧ records m3 ⊆ records m4
     ∧ read m4 (store m2) node_name = Some r2
     ∧ read m4 (store m4) node_name = Some r3).
Proof.
  intros m1 m2 snapshot m3 m4.
  assert (Hr2 : read m2 (store m2) node_name = Some r2)
    by apply read_store_record.
  assert (Hdom : dom (store m2) = dom (store m1)).
  { cbn. rewrite !dom_insert_L. by rewrite (assoc_L (∪)), (idemp_L (∪)). }
  repeat split.
  - apply read_store_record.
  - done.
  - done.
  - rewrite <- !size_dom. by rewrite Hdom.
  - apply fresh_snapshot_unused.
  - cbn. by rewrite lookup_insert_eq.
  - cbn. by rewrite lookup_insert_eq.
  - apply (records_store_record node_name r3 m3).
  - by apply read_after_store_record.
  - apply read_store_record.
Qed.

(** ** The worker *)

Lemma ms_since_nonneg (start_time now : Q) :
  (start_time <= now)%Q → 0 ≤ ms_since start_time now.
Proof.
  intros Hle. unfold ms_since, Qtrunc. apply Z.quot_pos; [|lia].
  unfold Qle in Hle. destruct start_time as [a b], now as [c d]. cbn in *. nia.
Qed.

(** The worker calls the probe on the node's address and type and binds the
    node's name to one new record. *)
Lemma check_single_node_eq (E : env) (n : node) (timeout : Z) (m : monitor)
    (w : world) :
  ∃ is_healthy response_time w1,
    _check_connectivity E (ip_of n) (type_of n) timeout w
    = (Ok (is_healthy, response_time), w1)
    ∧ _check_single_node E n timeout (m, w)
      = (store_record (name_of n)
           (HealthRecord.mk (ip_of n) (type_of n)
              (if is_healthy then Healthy else Unhealthy)
              response_time (clock E (ticks w1))
              (_get_recommendation is_healthy response_time (type_of n))) m,
         World (S (ticks w1)) (conn_log w1)).
Proof.
  destruct (check_connectivity_returns E (ip_of n) (type_of n) timeout w)
    as (b & rt & w1 & Heq).
  exists b, rt, w1. split; [done|].
  unfold _check_single_node, check_single_node_with.
  fold (ip_of n) (type_of n) (name_of n). by rewrite Heq.
Qed.

Lemma check_single_node_dom (E : env) (n : node) (timeout : Z) (m : monitor)
    (w : world) :
  dom (store (fst (_check_single_node E n timeout (m, w))))
  = {[name_of n]} ∪ dom (store m).
Proof.
  destruct (check_single_node_eq E n timeout m w) as (b & rt & w1 & _ & ->).
  cbn. by rewrite dom_insert_L.
Qed.

Lemma run_workers_dom (E : env) (timeout : Z) (nodes : list node) :
  ∀ st, dom (store (fst (run_workers E timeout nodes st)))
        = list_to_set (name_of <$> nodes) ∪ dom (store (fst st)).
Proof.
  unfold run_workers.
  induction nodes as [|n rest IH]; intros [m w]; cbn [foldl fmap list_fmap list_to_set].
  - cbn. by rewrite (left_id_L ∅ (∪)).
  - rewrite IH, check_single_node_dom. cbn [fst].
    rewrite !(assoc_L (∪)). f_equal. apply (comm_L (∪)).
Qed.

Lemma record_after_eq (E : env) (n : node) (timeout : Z) (m : monitor)
    (w : world) :
  ∃ is_healthy response_time w1,
    _check_connectivity E (ip_of n) (type_of n) timeout w
    = (Ok (is_healthy, response_time), w1)
    ∧ record_after E n timeout m w
      = Some (HealthRecord.mk (ip_of n) (type_of n)
                (if is_healthy then Healthy else Unhealthy)
                response_time (clock E (ticks w1))
                (_get_recommendation is_healthy response_time (type_of n))).
Proof.
  destruct (check_single_node_eq E n timeout m w) as (b & rt & w1 & Hp & Heq).
  exists b, rt, w1. split; [done|].
  unfold record_after. rewrite Heq. cbn [fst]. apply read_store_record.
Qed.

(** C5, as amended. A node on which every connection attempt fails with an
    error code gets a record with status Unhealthy whose response time is
    the elapsed milliseconds since the probe began, as a whole number with
    the fraction dropped: it is not negative when the clock did not run
    backwards, it is 0 when the failure took less than a millisecond and at
    least 1 when it took a millisecond or more. The probe returns to the
    worker; it does not raise. *)
Theorem unreachable_node_is_unhealthy (E : env) (n : node) (timeout : Z)
    (m : monitor) (w : world) :
  refused E n timeout w →
  ∃ (last : nat) r,
    _check_connectivity E (ip_of n) (type_of n) timeout w
    = (Ok (false, HealthRecord.response_time r),
       World (S last)
         (conn_log w ++ attempted (ip_of n) timeout (test_ports (type_of n))))
    ∧ record_after E n timeout m w = Some r
    ∧ HealthRecord.status r = Unhealthy
    ∧ (ticks w < last)%nat
    ∧ truncation (elapsed_ms (clock E (ticks w)) (clock E last))
        (HealthRecord.response_time r)
    ∧ ((clock E (ticks w) <= clock E last)%Q → 0 ≤ HealthRecord.response_time r)
    ∧ ((0 <= elapsed_ms (clock E (ticks w)) (clock E last))%Q →
       (elapsed_ms (clock E (ticks w)) (clock E last) < 1)%Q →
       HealthRecord.response_time r = 0)
    ∧ ((1 <= elapsed_ms (clock E (ticks w)) (clock E last))%Q →
       1 ≤ HealthRecord.response_time r).
Proof.
  intros Href.
  destruct (check_connectivity_no_connect E (ip_of n) (type_of n) timeout w)
    as (last & Hprobe & Hlt).
  { intros j p Hj. destruct (Href j p Hj) as (code & Hcode & ->).
    cbn. by apply Z.eqb_neq. }
  destruct (record_after_eq E n timeout m w) as (b & rt & w1 & Hp & Hrec).
  rewrite Hprobe in Hp. injection Hp as <- <- <-.
  pose proof (ms_since_truncation (clock E (ticks w)) (clock E last)) as Htr.
  destruct (truncation_bounds _ _ Htr) as (_ & Hzero & Hone).
  eexists last, _. split; [|split; [exact Hrec|]]; cbn.
  - done.
  - split; [done|]. split; [done|]. split; [exact Htr|].
    split; [apply ms_since_nonneg|]. split; [exact Hzero|exact Hone].
Qed.

Lemma unreachable_node_is_unhealthy_witness :
  refused env_timing_out R1 2 w0
  ∧ ∃ r, record_after env_timing_out R1 2 init w0 = Some r
         ∧ HealthRecord.status r = Unhealthy
         ∧ HealthRecord.response_time r = 250.
Proof.
  assert (Href : refused env_timing_out R1 2 w0).
  { intros j p Hj. exists 110. split; [lia|reflexivity]. }
  split; [exact Href|].
  destruct (unreachable_node_is_unhealthy env_timing_out R1 2 init w0 Href)
    as (last & r & _ & Hrec & Hst & _).
  exists r. split; [exact Hrec|]. split; [exact Hst|].
  vm_compute in Hrec. injection Hrec as <-. reflexivity.
Defined.

(** C5 as it is stated fails: a refused connection to 127.0.0.1 that takes
    0.2 ms is recorded with a response time of 0. *)
Lemma unhealthy_response_time_can_be_zero :
  ¬ (refused env_refusing R1 2 w0 →
     ∃ r, record_after env_refusing R1 2 init w0 = Some r
          ∧ HealthRecord.status r = Unhealthy
          ∧ 0 < HealthRecord.response_time r).
Proof.
  intros Hclaim. destruct Hclaim as (r & Hrec & _ & Hpos).
  - intros j p Hj. exists 111. split; [lia|reflexivity].
  - vm_compute in Hrec. injection Hrec as <-. cbn in Hpos. lia.
Qed.

Lemma check_single_node_with_raising (probe : probe_fn) (E : env) (n : node)
    (timeout : Z) (m : monitor) (w : world) (e : string) (w1 : world) :
  probe E (ip_of n) (type_of n) timeout w = (Exn e, w1) →
  let m' := fst (check_single_node_with probe E n timeout (m, w)) in
  read m' (store m') (name_of n)
  = Some (HealthRecord.mk (ip_of n) (type_of n) Error 0 (clock E (ticks w1))
            ("Connection failed: " +:+ String.substring 0 50 e)).
Proof.
  intros Hprobe. unfold check_single_node_with.
  fold (ip_of n) (type_of n) (name_of n). rewrite Hprobe.
  cbn [time_time fst]. apply read_store_record.
Qed.

(** Whatever its workers meet, a batch whose threads can be started starts
    them all. *)
Lemma start_threads_all (E : env) (timeout : Z) (batch : list node) :
  (∀ k, can_start E k = true) →
  ∀ m w h,
    start_threads E timeout batch (m, w, h)
    = (Ok tt,
       (run_workers E timeout batch (m, w),
        Sched (started h + length batch) (sched_log h ++ map EvStart batch)
          (log_file h))).
Proof.
  intros Hcan. unfold run_workers.
  induction batch as [|n rest IH]; intros m w h; cbn [start_threads foldl].
  - cbn. rewrite app_nil_r, Nat.add_0_r. by destruct h.
  - rewrite Hcan.
    destruct (_check_single_node E n timeout (m, w)) as [m1 w1].
    rewrite IH. cbn. rewrite <- app_assoc. repeat f_equal. lia.
Qed.

(** C4, as amended. An exception raised while a port is probed (a host name
    that does not resolve, a socket that cannot be created) is caught inside
    the probe and counts as a failed attempt: the record of the node is
    written with status Healthy or Unhealthy, never Error, and it is
    Unhealthy when every attempt raised. Only an exception that escapes the
    probe call is recorded with status Error, response time 0 and the first
    50 characters of its message after "Connection failed: ". In either case
    the batch goes on: every node of the batch is started and has a record
    when the batch is done. *)
Theorem probe_exception_handling (E : env) (n : node) (timeout : Z)
    (m : monitor) (w : world) :
  (∃ r, record_after E n timeout m w = Some r
        ∧ HealthRecord.status r ≠ Error)
  ∧ (raising E n timeout w →
     ∃ r, record_after E n timeout m w = Some r
          ∧ HealthRecord.status r = Unhealthy
          ∧ HealthRecord.recommendation r
            = _get_recommendation false (HealthRecord.response_time r) (type_of n))
  ∧ (∀ (probe : probe_fn) e w1,
       probe E (ip_of n) (type_of n) timeout w = (Exn e, w1) →
       let m' := fst (check_single_node_with probe E n timeout (m, w)) in
       ∃ r, read m' (store m') (name_of n) = Some r
            ∧ HealthRecord.status r = Error
            ∧ HealthRecord.response_time r = 0
            ∧ HealthRecord.recommendation r
              = "Connection failed: " +:+ String.substring 0 50 e)
  ∧ (∀ (batch : list node) h,
       (∀ k, can_start E k = true) →
       ∃ m' w' h',
         start_threads E timeout batch (m, w, h) = (Ok tt, (m', w', h'))
         ∧ started h' = (started h + length batch)%nat
         ∧ ∀ n', n' ∈ batch → name_of n' ∈ dom (store m')).
Proof.
  destruct (record_after_eq E n timeout m w) as (b & rt & w1 & Hp & Hrec).
  split; [|split; [|split]].
  - eexists. split; [exact Hrec|]. cbn. by destruct b.
  - intros Hraise.
    destruct (check_connectivity_no_connect E (ip_of n) (type_of n) timeout w)
      as (last & Hprobe & _).
    { intros j p Hj. by destruct (Hraise j p Hj) as (msg & ->). }
    rewrite Hprobe in Hp. injection Hp as <- <- <-.
    eexists. split; [exact Hrec|]. by cbn.
  - intros probe e w2 Hprobe m'. eexists. split.
    + by apply (check_single_node_with_raising probe E n timeout m w e w2).
    + by cbn.
  - intros batch h Hcan. rewrite (start_threads_all E timeout batch Hcan).
    destruct (run_workers E timeout batch (m, w)) as [m' w'] eqn:Hrun.
    eexists m', w', _. split; [done|]. split; [done|].
    intros n' Hin.
    assert (Hdom := run_workers_dom E timeout batch (m, w)).
    rewrite Hrun in Hdom. cbn [fst] in Hdom. rewrite Hdom.
    apply elem_of_union_l, elem_of_list_to_set, list_elem_of_fmap.
    by exists n'.
Qed.

Lemma probe_exception_handling_witness :
  raising env_unresolved R2 2 w0
  ∧ ∃ r, record_after env_unresolved R2 2 init w0 = Some r
         ∧ HealthRecord.status r = Unhealthy.
Proof.
  assert (Hraise : raising env_unresolved R2 2 w0).
  { intros j p Hj. eexists. reflexivity. }
  split; [exact Hraise|].
  destruct (probe_exception_handling env_unresolved R2 2 init w0)
    as (_ & Hun & _).
  destruct (Hun Hraise) as (r & Hrec & Hst & _).
  exists r. split; [exact Hrec|exact Hst].
Defined.

(** C4 as it is stated fails: the first attempt on a host name that does
    not resolve raises, and the record is written with status Unhealthy and
    the recommendation of an SSH failure. *)
Lemma probe_exception_is_recorded_unhealthy :
  attempt_at env_unresolved (ip_of R2) 2 w0 0 22
  = Raised "[Errno -2] Name or service not known"
  ∧ ¬ (∃ r, record_after env_unresolved R2 2 init w0 = Some r
            ∧ HealthRecord.status r = Error
            ∧ HealthRecord.recommendation r
              = "Connection failed: "
                +:+ String.substring 0 50 "[Errno -2] Name or service not known").
Proof.
  split; [reflexivity|].
  intros (r & Hrec & Hst & _).
  vm_compute in Hrec. injection Hrec as <-. discriminate Hst.
Qed.







(** ** Batches *)

Lemma batch_count_bounds (len : nat) (max_concurrent : Z) :
  1 ≤ max_concurrent →
  let n := Z.to_nat ((Z.of_nat len + max_concurrent - 1) / max_concurrent) in
  let s := Z.to_nat max_concurrent in
  (len ≤ n * s)%nat ∧ (n * s < len + s)%nat.
Proof.
  intros Hmax n s.
  pose proof (Z.div_mod (Z.of_nat len + max_concurrent - 1) max_concurrent) as Hdm.
  pose proof (Z.mod_pos_bound (Z.of_nat len + max_concurrent - 1) max_concurrent) as Hmod.
  assert (Hq : 0 ≤ (Z.of_nat len + max_concurrent - 1) / max_concurrent)
    by (apply Z.div_pos; lia).
  assert (Hn : Z.of_nat (n * s)
               = max_concurrent * ((Z.of_nat len + max_concurrent - 1) / max_concurrent)).
  { unfold n, s. rewrite Nat2Z.inj_mul, !Z2Nat.id by lia. lia. }
  split; lia.
Qed.

Lemma range0_pos (stop step : Z) :
  1 ≤ step →
  range0 stop step
  = Ok (map (λ k : nat, Z.of_nat k * step)
          (seq 0 (Z.to_nat ((stop + step - 1) / step)))).
Proof.
  intros Hstep. unfold range0.
  destruct (Z.eqb_spec step 0); [lia|].
  destruct (Z.ltb_spec step 0); [lia|done].
Qed.

(** With a positive batch size, batch [k] holds the nodes from position
    [k * size] on, [size] of them or as many as are left. *)
Lemma batches_pos {A : Type} (nodes : list A) (max_concurrent : Z) :
  1 ≤ max_concurrent →
  batches nodes max_concurrent
  = Ok (map (λ k : nat, take (Z.to_nat max_concurrent)
                          (drop (k * Z.to_nat max_concurrent) nodes))
          (seq 0 (Z.to_nat ((Z.of_nat (length nodes) + max_concurrent - 1)
                            / max_concurrent)))).
Proof.
  intros Hmax. unfold batches. rewrite range0_pos by done.
  f_equal. rewrite map_map. apply map_ext. intros k. unfold slice.
  f_equal; [f_equal; lia|]. f_equal.
  rewrite Z2Nat.inj_mul, Nat2Z.id by lia. done.
Qed.

Lemma concat_chunks {A : Type} (l : list A) (s n : nat) :
  concat (map (λ k : nat, take s (drop (k * s) l)) (seq 0 n)) = take (n * s) l.
Proof.
  induction n as [|n IH]; [done|].
  rewrite seq_S, map_app, concat_app, IH. cbn.
  rewrite app_nil_r, take_take_drop. f_equal. lia.
Qed.

Lemma batches_concat {A : Type} (nodes : list A) (max_concurrent : Z)
    (bs : list (list A)) :
  1 ≤ max_concurrent → batches nodes max_concurrent = Ok bs →
  concat bs = nodes.
Proof.
  intros Hmax. rewrite batches_pos by done. intros [= <-].
  rewrite concat_chunks. apply take_ge.
  apply (batch_count_bounds (length nodes) max_concurrent Hmax).
Qed.


(** ** The check cycle *)




Lemma reset_flag_idle (m : monitor) :
  check_in_progress m = false →
  set_check_in_progress false (set_check_in_progress true m) = m.
Proof. destruct m as [s sn r run flag]. cbn. by intros ->. Qed.

(** The worker does not read or write the flags of the monitor. *)
Lemma check_single_node_flag (E : env) (n : node) (timeout : Z) (b : bool)
    (m : monitor) (w : world) :
  _check_single_node E n timeout (set_check_in_progress b m, w)
  = (set_check_in_progress b (fst (_check_single_node E n timeout (m, w))),
     snd (_check_single_node E n timeout (m, w))).
Proof.
  destruct (check_single_node_eq E n timeout m w) as (b1 & rt1 & w1 & Hp1 & ->).
  destruct (check_single_node_eq E n timeout (set_check_in_progress b m) w)
    as (b2 & rt2 & w2 & Hp2 & ->).
  rewrite Hp1 in Hp2. by injection Hp2 as <- <- <-.
Qed.

Lemma run_workers_flag (E : env) (timeout : Z) (nodes : list node) (b : bool) :
  ∀ m w,
    run_workers E timeout nodes (set_check_in_progress b m, w)
    = (set_check_in_progress b (fst (run_workers E timeout nodes (m, w))),
       snd (run_workers E timeout nodes (m, w))).
Proof.
  unfold run_workers.
  induction nodes as [|n rest IH]; intros m w; cbn [foldl]; [done|].
  rewrite check_single_node_flag.
  destruct (_check_single_node E n timeout (m, w)) as [m1 w1]. apply IH.
Qed.

Lemma run_workers_flags (E : env) (timeout : Z) (nodes : list node) :
  ∀ m w,
    let m' := fst (run_workers E timeout nodes (m, w)) in
    check_in_progress m' = check_in_progress m ∧ running m' = running m.
Proof.
  unfold run_workers.
  induction nodes as [|n rest IH]; intros m w; cbn [foldl]; [done|].
  destruct (check_single_node_eq E n timeout m w) as (b & rt & w1 & _ & ->).
  split; [rewrite (proj1 (IH _ _))|rewrite (proj2 (IH _ _))]; done.
Qed.

(** The threads of a batch are started in order until one cannot be; the
    workers of those started have run. *)
Lemma start_threads_spec (E : env) (timeout : Z) (batch : list node) :
  ∀ m w h, ∃ (j : nat) res,
    (j ≤ length batch)%nat
    ∧ start_threads E timeout batch (m, w, h)
      = (res,
         (run_workers E timeout (take j batch) (m, w),
          Sched (started h + j) (sched_log h ++ map EvStart (take j batch))
            (log_file h)))
    ∧ (∀ i : nat, (i < j)%nat → can_start E (started h + i) = true)
    ∧ ((res = Ok tt ∧ j = length batch)
       ∨ (res = Exn "can't start new thread" ∧ (j < length batch)%nat
          ∧ can_start E (started h + j) = false)).
Proof.
  unfold run_workers.
  induction batch as [|n rest IH]; intros m w h; cbn [start_threads].
  - exists 0%nat, (Ok tt). cbn. rewrite app_nil_r, Nat.add_0_r.
    split; [lia|]. split; [by destruct h|]. split; [lia|auto].
  - destruct (can_start E (started h)) eqn:Hcan.
    + destruct (_check_single_node E n timeout (m, w)) as [m1 w1] eqn:Hn.
      destruct (IH m1 w1 (Sched (S (started h)) (sched_log h ++ [EvStart n])
                            (log_file h)))
        as (j & res & Hj & -> & Hbefore & Hres).
      exists (S j), res. cbn [length take foldl started sched_log log_file map].
      rewrite Hn, <- app_assoc, Nat.add_succ_r. cbn in *.
      split; [lia|]. split; [done|]. split.
      * intros [|i] Hi; [by rewrite Nat.add_0_r|].
        rewrite Nat.add_succ_r. apply Hbefore. lia.
      * destruct Hres as [[-> ->]|(-> & Hlt & Hno)]; [by left|right].
        split; [done|]. split; [lia|done].
    + exists 0%nat, (Exn "can't start new thread"). cbn.
      rewrite app_nil_r, !Nat.add_0_r.
      split; [lia|]. split; [by destruct h|]. split; [lia|].
      right. split; [done|]. split; [lia|done].
Qed.

Lemma run_batches_spec (E : env) (timeout : Z) (bs : list (list node)) :
  ∀ m w h, ∃ (j : nat) res h',
    (j ≤ length (concat bs))%nat
    ∧ run_batches E timeout bs (m, w, h)
      = (res, (run_workers E timeout (take j (concat bs)) (m, w), h'))
    ∧ started h' = (started h + j)%nat
    ∧ log_file h' = log_file h
    ∧ (∀ i : nat, (i < j)%nat → can_start E (started h + i) = true)
    ∧ ((res = Ok tt ∧ j = length (concat bs))
       ∨ (res = Exn "can't start new thread" ∧ (j < length (concat bs))%nat
          ∧ can_start E (started h + j) = false)).
Proof.
  induction bs as [|b rest IH]; intros m w h; cbn [run_batches concat].
  - exists 0%nat, (Ok tt), h. cbn. rewrite Nat.add_0_r.
    split; [lia|]. split; [done|]. split; [done|]. split; [done|].
    split; [lia|auto].
  - destruct (start_threads_spec E timeout b m w h)
      as (j0 & res0 & Hj0 & -> & Hbefore0 & Hres0).
    destruct Hres0 as [[-> ->]|(-> & Hlt & Hno)].
    + rewrite firstn_all.
      destruct (run_workers E timeout b (m, w)) as [m1 w1] eqn:Hb.
      destruct (IH m1 w1 (emit (join_and_pause timeout b)
                            (Sched (started h + length b)
                               (sched_log h ++ map EvStart b) (log_file h))))
        as (j & res & h' & Hj & -> & Hst & Hlog & Hbefore & Hres).
      exists (length b + j)%nat, res, h'. cbn in Hst, Hlog, Hbefore, Hres.
      rewrite length_app, take_app_add.
      split; [lia|]. split.
      { unfold run_workers in *. by rewrite foldl_app, Hb. }
      split; [lia|]. split; [done|]. split.
      * intros i Hi. destruct (decide (i < length b)%nat) as [Hib|Hib].
        -- by apply Hbefore0.
        -- replace (started h + i)%nat
             with (started h + length b + (i - length b))%nat by lia.
           apply Hbefore. lia.
      * destruct Hres as [[-> ->]|(-> & Hlt & Hno)]; [by left|right].
        split; [done|]. split; [lia|]. by rewrite Nat.add_assoc.
    + eexists j0, _, _. rewrite length_app, take_app_le by lia.
      split; [lia|]. split; [done|]. cbn. split; [done|]. split; [done|].
      split; [done|]. right. split; [done|]. split; [lia|done].
Qed.




(** C7. When the configuration file is absent, or has no [nodes] list, or an
    empty one, the cycle returns normally and leaves the monitor, the
    network and the log as they were: no record is written and nothing is
    logged. [get_health_data] afterwards returns what it returned before, a
    copy of the unchanged store, which is the empty mapping when nothing was
    ever written. *)
Theorem empty_config_cycle_is_noop (E : env) (cfg : config_file)
    (app_settings : gmap string Z) (m : monitor) (w : world) (h : sched) :
  cfg = NoFile ∨ cfg = Config None ∨ cfg = Config (Some []) →
  let after := _check_connections_safely E cfg app_settings (m, w, h) in
  let m' := fst (fst (snd after)) in
  after = (Ok tt, (m, w, h))
  ∧ get_health_data m' = get_health_data m
  ∧ snapshots (snd (get_health_data m')) !! fst (get_health_data m')
    = Some (store m)
  ∧ (m = init →
     snapshots (snd (get_health_data m')) !! fst (get_health_data m') = Some ∅).
Proof.
  intros Hcfg after m'.
  assert (Hafter : after = (Ok tt, (m, w, h))).
  { unfold after, _check_connections_safely.
    destruct (check_in_progress m) eqn:Hflag; [done|].
    destruct Hcfg as [->|[->| ->]]; cbn; by rewrite reset_flag_idle. }
  assert (Hm : m' = m) by (unfold m'; by rewrite Hafter).
  rewrite Hm. split; [done|]. split; [done|]. split.
  - cbn. by rewrite lookup_insert_eq.
  - intros ->. cbn. by rewrite lookup_insert_eq.
Qed.

Lemma empty_config_cycle_is_noop_witness :
  (Config (Some []) = NoFile ∨ Config (Some []) = Config None
   ∨ Config (Some []) = Config (Some []))
  ∧ _check_connections_safely env_refusing (Config (Some [])) ∅ (init, w0, h0)
    = (Ok tt, (init, w0, h0)).
Proof.
  split; [right; right; reflexivity|].
  apply (empty_config_cycle_is_noop env_refusing (Config (Some [])) ∅ init w0 h0).
  right. right. reflexivity.
Defined.

(** ** The in-progress guard *)

Section GuardProofs.
Import Guard.

Lemma count_cons (t : pc) (l : list pc) :
  length (filter (λ t, in_cycle t = true) (t :: l))
  = (weight t + length (filter (λ t, in_cycle t = true) l))%nat.
Proof.
  rewrite filter_cons. unfold weight.
  destruct (decide (in_cycle t = true)) as [->|Hn]; [done|].
  by destruct (in_cycle t).
Qed.

Lemma count_app (l1 l2 : list pc) :
  length (filter (λ t, in_cycle t = true) (l1 ++ l2))
  = (length (filter (λ t, in_cycle t = true) l1)
     + length (filter (λ t, in_cycle t = true) l2))%nat.
Proof. by rewrite filter_app, length_app. Qed.

Lemma count_insert (l : list pc) : ∀ (i : nat) t q,
  l !! i = Some t →
  (length (filter (λ t, in_cycle t = true) (<[i := q]> l)) + weight t
   = length (filter (λ t, in_cycle t = true) l) + weight q)%nat.
Proof.
  induction l as [|t0 l IH]; intros i t q Hi; [done|].
  destruct i as [|i]; cbn in Hi.
  - injection Hi as ->.
    change (<[0%nat := q]> (t :: l)) with (q :: l).
    rewrite !count_cons. lia.
  - change (<[S i := q]> (t0 :: l)) with (t0 :: <[i := q]> l).
    rewrite !count_cons. specialize (IH i t q Hi). lia.
Qed.

Lemma step_pc_atomic_not_at_set (flag : bool) (t : pc) :
  t ≠ AtSet → snd (step_pc true flag t) ≠ AtSet.
Proof. destruct t, flag; cbn; congruence. Qed.

(** One step of a thread that is not between test and set: the flag after
    the step and the change in the number of cycles. *)
Lemma step_pc_atomic_count (flag : bool) (t : pc) (others : nat) :
  t ≠ AtSet →
  (weight t + others = if flag then 1 else 0)%nat →
  (weight (snd (step_pc true flag t)) + others
   = if fst (step_pc true flag t) then 1 else 0)%nat.
Proof. destruct t, flag; cbn; intros; lia || congruence. Qed.

Lemma weight_le_count (ts : list pc) : ∀ (i : nat) t,
  ts !! i = Some t →
  (weight t ≤ length (filter (λ t, in_cycle t = true) ts))%nat.
Proof.
  induction ts as [|t0 ts IH]; intros i t Hi; [done|].
  rewrite count_cons. destruct i as [|i]; cbn in Hi.
  - injection Hi as ->. lia.
  - specialize (IH i t Hi). lia.
Qed.

Lemma guard_inv_intro (flag : bool) (lt : pc) (ts : list pc) :
  (weight lt + length (filter (λ t, in_cycle t = true) ts)
   = if flag then 1 else 0)%nat →
  lt ≠ AtSet → Forall (λ t, t ≠ AtSet) ts →
  guard_inv (Pool flag lt ts).
Proof.
  intros Hcount Hlt Hts. split.
  - unfold cycles_in_progress. cbn [loop_thread threads check_in_progress].
    by rewrite count_cons.
  - by apply Forall_cons.
Qed.

Lemma guard_inv_elim (flag : bool) (lt : pc) (ts : list pc) :
  guard_inv (Pool flag lt ts) →
  (weight lt + length (filter (λ t, in_cycle t = true) ts)
   = if flag then 1 else 0)%nat
  ∧ lt ≠ AtSet ∧ Forall (λ t, t ≠ AtSet) ts.
Proof.
  intros [Hcount Hset].
  unfold cycles_in_progress in Hcount.
  cbn [loop_thread threads check_in_progress] in *.
  rewrite count_cons in Hcount. by apply Forall_cons in Hset as [? ?].
Qed.

Lemma guard_inv_exec (p : pool) (a : action) :
  guard_inv p → guard_inv (exec true p a).
Proof.
  destruct p as [flag lt ts]. intros Hinv.
  destruct (guard_inv_elim flag lt ts Hinv) as (Hcount & Hlt & Hts).
  destruct a as [| | |i];
    cbn [exec force_check tick check_in_progress loop_thread threads].
  - destruct flag; cbn [negb snd]; [done|].
    apply guard_inv_intro; [|done|].
    + assert (H0 : length (filter (λ t, in_cycle t = true) [AtGuard]) = 0%nat)
        by reflexivity.
      by rewrite count_app, H0, Nat.add_0_r.
    + apply Forall_app. split; [done|]. by apply Forall_singleton.
  - destruct lt; try done. destruct flag; cbn [negb]; [done|].
    apply guard_inv_intro; [|done|done]. exact Hcount.
  - pose proof (step_pc_atomic_count flag lt _ Hlt Hcount) as Hc.
    pose proof (step_pc_atomic_not_at_set flag lt Hlt) as Hq.
    destruct (step_pc true flag lt) as [f q]. by apply guard_inv_intro.
  - destruct (ts !! i) as [t|] eqn:Hi; [|done].
    assert (Ht : t ≠ AtSet).
    { rewrite Forall_forall in Hts. apply Hts.
      apply list_elem_of_lookup. eauto. }
    pose proof (count_insert ts i t (snd (step_pc true flag t)) Hi) as Hins.
    pose proof (weight_le_count ts i t Hi) as Hw.
    pose proof (step_pc_atomic_count flag t
                  (weight lt + length (filter (λ t, in_cycle t = true) ts)
                   - weight t) Ht) as Hc.
    pose proof (step_pc_atomic_not_at_set flag t Ht) as Hq.
    destruct (step_pc true flag t) as [f q]. cbn [fst snd] in *.
    apply guard_inv_intro; [lia|done|]. by apply Forall_insert.
Qed.

Lemma guard_inv_run (acts : list action) :
  ∀ p, guard_inv p → guard_inv (run true acts p).
Proof.
  unfold run. induction acts as [|a acts IH]; intros p Hp; [done|].
  cbn [foldl]. apply IH. by apply guard_inv_exec.
Qed.

Lemma guard_inv_after_start : guard_inv after_start.
Proof.
  split; [done|]. cbn. by repeat constructor.
Qed.
End GuardProofs.

Lemma lookup_last {A : Type} (l : list A) (x : A) :
  (l ++ [x]) !! length l = Some x.
Proof. induction l as [|a l IH]; [done|]. exact IH. Qed.

Lemma insert_last {A : Type} (l : list A) (x y : A) :
  <[length l := y]> (l ++ [x]) = l ++ [y].
Proof.
  induction l as [|a l IH]; [done|].
  change (a :: <[length l := y]> (l ++ [x]) = a :: (l ++ [y])). by rewrite IH.
Qed.

(** C1, as amended. The guard is a test of the flag followed by a separate
    assignment. When the two run as one step, at most one cycle is in
    progress in every reachable pool of threads, and the flag is set exactly
    while one is. [force_check] while the flag is set returns false and
    starts no thread; while the flag is clear it returns true and starts a
    thread that, run next, sets the flag and enters a cycle. A tick of the
    monitor loop while the flag is set changes nothing, and a thread that
    reaches the test while the flag is set leaves without a cycle. *)
Theorem one_cycle_when_entry_is_atomic (acts : list Guard.action)
    (p : Guard.pool) :
  let q := Guard.run true acts Guard.after_start in
  ((Guard.cycles_in_progress q ≤ 1)%nat
   ∧ (Guard.check_in_progress q = true ↔ Guard.cycles_in_progress q = 1%nat))
  ∧ (Guard.check_in_progress p = true →
     Guard.force_check p = (false, p)
     ∧ Guard.tick p = p
     ∧ ∀ atomic, Guard.step_pc atomic true Guard.AtGuard = (true, Guard.Outside))
  ∧ (Guard.check_in_progress p = false →
     let i := length (Guard.threads p) in
     let p' := snd (Guard.force_check p) in
     fst (Guard.force_check p) = true
     ∧ p' = Guard.Pool false (Guard.loop_thread p)
              (Guard.threads p ++ [Guard.AtGuard])
     ∧ Guard.run false [Guard.Run i; Guard.Run i] p'
       = Guard.Pool true (Guard.loop_thread p)
           (Guard.threads p ++ [Guard.InCycle])).
Proof.
  intros q. split; [|split].
  - destruct (guard_inv_run acts Guard.after_start guard_inv_after_start)
      as [Hcount _].
    fold q in Hcount. rewrite Hcount.
    destruct (Guard.check_in_progress q); split; try lia; split; done.
  - destruct p as [flag lt ts]. cbn. intros ->. split; [done|]. split.
    + unfold Guard.tick. cbn. by destruct lt.
    + by intros [].
  - destruct p as [flag lt ts]. cbn. intros ->. cbn.
    split; [done|]. split; [done|].
    rewrite lookup_last. cbn. rewrite insert_last, lookup_last. cbn.
    by rewrite insert_last.
Qed.

Lemma one_cycle_when_entry_is_atomic_witness :
  Guard.check_in_progress Guard.after_start = false
  ∧ Guard.run false [Guard.Run 1; Guard.Run 1]
      (snd (Guard.force_check Guard.after_start))
    = Guard.Pool true Guard.Outside [Guard.AtGuard; Guard.InCycle]
  ∧ (Guard.cycles_in_progress (Guard.run true racing_schedule Guard.after_start)
     ≤ 1)%nat.
Proof.
  destruct (one_cycle_when_entry_is_atomic racing_schedule Guard.after_start)
    as ((Hle & _) & _ & Hidle).
  split; [reflexivity|]. split; [|exact Hle].
  destruct (Hidle eq_refl) as (_ & _ & Hrun). exact Hrun.
Defined.

(** C1 as it is stated fails: the loop thread and the thread of a manual
    check both test the flag while it is clear, then both set it and both
    run a cycle. *)
Lemma two_cycles_in_progress :
  ¬ (Guard.cycles_in_progress (Guard.run false racing_schedule Guard.after_start)
     ≤ 1)%nat.
Proof. cbv. lia. Qed.

(** ** The scenarios of the specification, computed *)

(** Scenario A: one ssh node at 127.0.0.1 with nothing listening on port
    22. The cycle writes one record, Unhealthy, after one attempt. *)
Example scenario_refused_node :
  let '(r, (m, w, h)) :=
    _check_connections_safely env_refusing (Config (Some [R1])) ∅ (init, w0, h0) in
  r = Ok tt
  ∧ check_in_progress m = false
  ∧ HealthRecord.status <$> read m (store m) "R1" = Some Unhealthy
  ∧ HealthRecord.response_time <$> read m (store m) "R1" = Some 0
  ∧ conn_log w = [("127.0.0.1", 22, 2)]
  ∧ sched_log h = [EvStart R1; EvJoin R1 3; EvSleep (1 # 10)%Q].
Proof. vm_compute. by repeat split. Qed.

(** Scenario B: a configuration with no nodes leaves the initial monitor
    with its empty store. *)
Example scenario_no_nodes :
  _check_connections_safely env_refusing (Config (Some [])) ∅ (init, w0, h0)
  = (Ok tt, (init, w0, h0))
  ∧ store init = ∅.
Proof. by split. Qed.

(** A batch size of 0 makes [range] raise: the cycle logs the error and
    returns to idle without a record. *)
Example scenario_zero_batch_size :
  _check_connections_safely env_refusing (Config (Some [R1]))
    {[ "max_concurrent_checks" := 0 ]} (init, w0, h0)
  = (Ok tt,
     (init, w0,
      Sched 0 []
        [("ERROR", "Safe connection check error: range() arg 3 must not be zero")])).
Proof. reflexivity. Qed.

(** An open port is reported healthy with a response time of at least 1,
    although the connection took 0.2 ms. *)
Example scenario_open_port :
  fst (_check_connectivity env_open "10.0.0.1" "telnet" 2 w0) = Ok (true, 1).
Proof. reflexivity. Qed.

(** * Further properties of the monitor *)

(** ** What a cycle keeps *)

Lemma extends_refl (m : monitor) : extends m m.
Proof. by repeat split. Qed.

Lemma extends_trans (m1 m2 m3 : monitor) :
  extends m1 m2 → extends m2 m3 → extends m1 m3.
Proof.
  intros (Hs & Hr & Hd & Hrun & Hf) (Hs' & Hr' & Hd' & Hrun' & Hf').
  repeat split; try congruence.
  - by etrans.
  - by etrans.
Qed.

Lemma store_record_extends (node_name : string) (r : HealthRecord.t)
    (m : monitor) :
  extends m (store_record node_name r m).
Proof.
  repeat split.
  - apply (records_store_record node_name r m).
  - cbn. rewrite dom_insert_L. apply union_subseteq_r.
Qed.

Lemma check_single_node_extends (E : env) (n : node) (timeout : Z)
    (m : monitor) (w : world) :
  extends m (fst (_check_single_node E n timeout (m, w))).
Proof.
  destruct (check_single_node_eq E n timeout m w) as (b & rt & w1 & _ & ->).
  apply store_record_extends.
Qed.

Lemma run_workers_extends (E : env) (timeout : Z) (nodes : list node) :
  ∀ m w, extends m (fst (run_workers E timeout nodes (m, w))).
Proof.
  unfold run_workers.
  induction nodes as [|n rest IH]; intros m w; cbn [foldl].
  - apply extends_refl.
  - pose proof (check_single_node_extends E n timeout m w) as Hn.
    destruct (_check_single_node E n timeout (m, w)) as [m1 w1].
    eapply extends_trans; [exact Hn|apply IH].
Qed.

Lemma read_extends (m m' : monitor) (d : gmap string loc) (name : string)
    (r : HealthRecord.t) :
  extends m m' → read m d name = Some r → read m' d name = Some r.
Proof.
  intros (_ & Hrec & _). unfold read.
  destruct (d !! name) as [l|]; cbn; [|done].
  intros Hl. by eapply lookup_weaken.
Qed.

Lemma batches_nonpositive {A : Type} (nodes : list A) (max_concurrent : Z) :
  max_concurrent < 1 →
  (max_concurrent = 0
   ∧ batches nodes max_concurrent = Exn "range() arg 3 must not be zero")
  ∨ (max_concurrent < 0 ∧ batches nodes max_concurrent = Ok []).
Proof.
  intros Hmax. unfold batches, range0.
  destruct (Z.eqb_spec max_concurrent 0) as [->|Hne]; [by left|right].
  split; [lia|]. by destruct (Z.ltb_spec max_concurrent 0); [|lia].
Qed.

(** A cycle is the workers of the first nodes of the configuration, as many
    as could be started, run on the monitor it found; whatever else it does
    is in the log and the trace of the scheduler thread. *)
Lemma cycle_is_workers (E : env) (cfg : config_file)
    (app_settings : gmap string Z) (m : monitor) (w : world) (h : sched) :
  ∃ (j : nat) h',
    _check_connections_safely E cfg app_settings (m, w, h)
    = (Ok tt,
       (run_workers E (default 2 (app_settings !! "node_timeout"))
          (take j (configured cfg)) (m, w),
        h')).
Proof.
  unfold _check_connections_safely.
  destruct (check_in_progress m) eqn:Hidle.
  { exists 0%nat, h. by rewrite take_0. }
  assert (Hnone : ∀ h' : sched,
            ∃ (j : nat) h'',
              (Ok tt, (set_check_in_progress false (set_check_in_progress true m), w, h'))
              = (Ok tt : result unit,
                 (run_workers E (default 2 (app_settings !! "node_timeout"))
                    (take j (configured cfg)) (m, w), h''))).
  { intros h'. exists 0%nat, h'. by rewrite take_0, reset_flag_idle. }
  destruct cfg as [|e|[[|n0 rest]|]]; try (cbn [cycle_body default]; apply Hnone).
  set (nodes := n0 :: rest).
  unfold cycle_body. change (default [] (Some nodes)) with nodes.
  unfold nodes at 1. cbv beta iota zeta. fold nodes.
  set (max_concurrent := default 3 (app_settings !! "max_concurrent_checks")).
  set (timeout := default 2 (app_settings !! "node_timeout")).
  destruct (batches nodes max_concurrent) as [bs|e] eqn:Hbs; [|apply Hnone].
  assert (Hconcat : concat bs = nodes ∨ concat bs = []).
  { destruct (Z_lt_le_dec max_concurrent 1) as [Hlt|Hge].
    - right. destruct (batches_nonpositive nodes max_concurrent Hlt)
        as [[_ Heq]|[_ Heq]]; rewrite Heq in Hbs; [done|].
      by injection Hbs as <-.
    - left. by eapply batches_concat. }
  destruct (run_batches_spec E timeout bs (set_check_in_progress true m) w h)
    as (j & res & h2 & _ & -> & _).
  rewrite run_workers_flag.
  pose proof (run_workers_flags E timeout (take j (concat bs)) m w) as [Hf _].
  cbn zeta in Hf.
  assert (Hns : ∃ j' : nat, take j (concat bs) = take j' (configured (Config (Some nodes)))).
  { destruct Hconcat as [-> | ->]; [by exists j|].
    exists 0%nat. by rewrite take_nil, take_0. }
  destruct Hns as [j' Hns]. rewrite Hns in *.
  destruct (run_workers E timeout (take j' (configured (Config (Some nodes)))) (m, w))
    as [mk wk] eqn:Hrun.
  cbn [fst snd] in *. rewrite reset_flag_idle by congruence.
  destruct res; eexists j', _; by rewrite Hrun.
Qed.




(** X1. A check cycle only adds to the monitor. The dictionaries that
    [get_health_data] handed out are untouched and so is every record
    object, so a mapping read before the cycle reads the same after it; no
    name leaves the store; [running] and the in-progress flag are as
    before. *)
Theorem cycle_keeps_snapshots (E : env) (cfg : config_file)
    (app_settings : gmap string Z) (m : monitor) (w : world) (h : sched) :
  let m' := fst (fst (snd (_check_connections_safely E cfg app_settings (m, w, h)))) in
  extends m m'
  ∧ (∀ (d : gmap string loc) name r,
       read m d name = Some r → read m' d name = Some r)
  ∧ (∀ name, is_Some (store m !! name) → is_Some (store m' !! name)).
Proof.
  intros m'.
  destruct (cycle_is_workers E cfg app_settings m w h) as (j & h' & Heq).
  assert (Hext : extends m m').
  { unfold m'. rewrite Heq. cbn [snd fst]. apply run_workers_extends. }
  split; [done|]. split.
  - intros d name r. by apply read_extends.
  - intros name Hname. destruct Hext as (_ & _ & Hdom & _).
    apply elem_of_dom, Hdom, elem_of_dom, Hname.
Qed.

Lemma cycle_keeps_snapshots_witness :
  let m := fst (_check_single_node env_refusing R1 2 (init, w0)) in
  let m' := fst (fst (snd (_check_connections_safely env_open
                             (Config (Some [R1])) ∅ (m, w0, h0)))) in
  read m (store m) "R1"
  = Some (HealthRecord.mk "127.0.0.1" "ssh" Unhealthy 0 (fast_clock 2)
            "SSH connection failed - verify SSH service running")
  ∧ read m' (store m) "R1"
    = Some (HealthRecord.mk "127.0.0.1" "ssh" Unhealthy 0 (fast_clock 2)
              "SSH connection failed - verify SSH service running").
Proof.
  intros m m'.
  assert (Hread : read m (store m) "R1"
                  = Some (HealthRecord.mk "127.0.0.1" "ssh" Unhealthy 0 (fast_clock 2)
                            "SSH connection failed - verify SSH service running"))
    by (vm_compute; reflexivity).
  split; [exact Hread|].
  destruct (cycle_keeps_snapshots env_open (Config (Some [R1])) ∅ m w0 h0)
    as (_ & Hkeep & _).
  apply Hkeep. exact Hread.
Defined.

Lemma run_workers_other_name (E : env) (timeout : Z) (name : string)
    (nodes : list node) :
  name ∉ name_of <$> nodes →
  ∀ m w, store (fst (run_workers E timeout nodes (m, w))) !! name = store m !! name.
Proof.
  unfold run_workers.
  induction nodes as [|n rest IH]; intros Hname m w; cbn [foldl]; [done|].
  rewrite fmap_cons, not_elem_of_cons in Hname. destruct Hname as [Hn Hrest].
  destruct (check_single_node_eq E n timeout m w) as (b & rt & w1 & _ & ->).
  rewrite IH by done. cbn. by rewrite lookup_insert_ne.
Qed.

(** X2. Nothing is evicted: a name that no configured node bears keeps the
    record it had, whatever the cycle does for the other nodes. A node taken
    out of the configuration is shown with its last record from then on. *)
Theorem absent_node_keeps_record (E : env) (cfg : config_file)
    (app_settings : gmap string Z) (m : monitor) (w : world) (h : sched)
    (name : string) (r : HealthRecord.t) :
  name ∉ name_of <$> configured cfg →
  read m (store m) name = Some r →
  let m' := fst (fst (snd (_check_connections_safely E cfg app_settings (m, w, h)))) in
  store m' !! name = store m !! name
  ∧ read m' (store m') name = Some r.
Proof.
  intros Hname Hread m'.
  destruct (cycle_is_workers E cfg app_settings m w h) as (j & h' & Heq).
  assert (Hstore : store m' !! name = store m !! name).
  { unfold m'. rewrite Heq. cbn [snd fst]. apply run_workers_other_name.
    intros Hin. apply Hname.
    apply list_elem_of_fmap in Hin as (n & -> & Hn).
    apply list_elem_of_fmap. exists n. split; [done|].
    apply list_elem_of_lookup in Hn as [i Hi].
    apply lookup_take_Some in Hi as [Hi _].
    apply list_elem_of_lookup. eauto. }
  split; [done|].
  assert (Hext : extends m m').
  { unfold m'. rewrite Heq. cbn [snd fst]. apply run_workers_extends. }
  unfold read. rewrite Hstore. by apply (read_extends m m' (store m) name r).
Qed.

Lemma absent_node_keeps_record_witness :
  let m := fst (_check_single_node env_refusing R1 2 (init, w0)) in
  let m' := fst (fst (snd (_check_connections_safely env_open
                             (Config (Some [R2])) ∅ (m, w0, h0)))) in
  ("R1" ∉ name_of <$> configured (Config (Some [R2])))
  ∧ read m' (store m') "R1"
    = Some (HealthRecord.mk "127.0.0.1" "ssh" Unhealthy 0 (fast_clock 2)
              "SSH connection failed - verify SSH service running").
Proof.
  intros m m'.
  assert (Hname : "R1" ∉ name_of <$> configured (Config (Some [R2]))).
  { intros Hin. apply list_elem_of_fmap in Hin as (n & Hn & Hin).
    apply list_elem_of_singleton in Hin. subst n. vm_compute in Hn. discriminate Hn. }
  split; [exact Hname|].
  apply (absent_node_keeps_record env_open (Config (Some [R2])) ∅ m w0 h0 "R1").
  - exact Hname.
  - vm_compute. reflexivity.
Defined.

(** ** Records are coherent *)

Lemma probe_loop_returns_healthy (E : env) (start_time : Q) (host : string)
    (timeout : Z) (ports : list Z) :
  ∀ rt w is_healthy response_time w',
    probe_loop E start_time host timeout ports rt w
    = (inl (is_healthy, response_time), w') →
    is_healthy = true ∧ 1 ≤ response_time.
Proof.
  induction ports as [|p0 rest IH]; intros rt w b t w'; cbn [probe_loop try_port].
  - discriminate.
  - destruct (net E _ host p0 timeout) as [code|msg]; [|apply IH].
    destruct (code =? 0); [|apply IH].
    cbn. intros [= <- <- _]. split; [done|lia].
Qed.

Lemma check_connectivity_healthy_time (E : env) (host node_type : string)
    (timeout : Z) (w : world) (response_time : Z) (w' : world) :
  _check_connectivity E host node_type timeout w = (Ok (true, response_time), w') →
  1 ≤ response_time.
Proof.
  unfold _check_connectivity. cbn [time_time].
  destruct (probe_loop _ _ _ _ _ _ _) as [[[b t]|[t|]] w1] eqn:Hloop;
    cbn; intros [= ? ? ?]; subst.
  by destruct (probe_loop_returns_healthy _ _ _ _ _ _ _ _ _ _ Hloop).
Qed.

Lemma check_single_node_coherent (E : env) (n : node) (timeout : Z)
    (m : monitor) (w : world) :
  map_Forall (λ _ r, coherent r) (records m) →
  map_Forall (λ _ r, coherent r)
    (records (fst (_check_single_node E n timeout (m, w)))).
Proof.
  intros Hall.
  destruct (check_single_node_eq E n timeout m w) as (b & rt & w1 & Hp & ->).
  cbn. apply map_Forall_insert_2; [|done].
  unfold coherent. destruct b; cbn; [|done].
  split; [|done]. by eapply check_connectivity_healthy_time.
Qed.

Lemma run_workers_coherent (E : env) (timeout : Z) (nodes : list node) :
  ∀ m w,
    map_Forall (λ _ r, coherent r) (records m) →
    map_Forall (λ _ r, coherent r)
      (records (fst (run_workers E timeout nodes (m, w)))).
Proof.
  unfold run_workers.
  induction nodes as [|n rest IH]; intros m w Hall; cbn [foldl]; [done|].
  pose proof (check_single_node_coherent E n timeout m w Hall) as Hn.
  destruct (_check_single_node E n timeout (m, w)) as [m1 w1]. by apply IH.
Qed.

(** X3. Every record a cycle writes is coherent, so a store of coherent
    records stays one: no record has status Error, a Healthy record has a
    response time of at least 1 ms, and the recommendation of a record is
    the one that belongs to its status, response time and type. The monitor
    starts with no record, so this holds of every record the display
    reads. *)
Theorem records_stay_coherent (E : env) (cfg : config_file)
    (app_settings : gmap string Z) (m : monitor) (w : world) (h : sched) :
  map_Forall (λ _ r, coherent r) (records m) →
  let m' := fst (fst (snd (_check_connections_safely E cfg app_settings (m, w, h)))) in
  map_Forall (λ _ r, coherent r) (records m')
  ∧ ∀ (d : gmap string loc) name r,
      read m' d name = Some r →
      HealthRecord.status r ≠ Error
      ∧ (HealthRecord.status r = Healthy → 1 ≤ HealthRecord.response_time r).
Proof.
  intros Hall m'.
  destruct (cycle_is_workers E cfg app_settings m w h) as (j & h' & Heq).
  assert (Hall' : map_Forall (λ _ r, coherent r) (records m')).
  { unfold m'. rewrite Heq. cbn [snd fst]. by apply run_workers_coherent. }
  split; [done|]. intros d name r. unfold read.
  destruct (d !! name) as [l|]; cbn; [|done].
  intros Hl. specialize (Hall' l r Hl). unfold coherent in Hall'.
  destruct (HealthRecord.status r).
  - split; [done|]. intros _. apply Hall'.
  - split; [done|]. intros Hs. discriminate Hs.
  - done.
Qed.

Lemma records_stay_coherent_witness :
  let m' := fst (fst (snd (_check_connections_safely env_telnet_only
                             (Config (Some seven_nodes)) ∅ (init, w0, h0)))) in
  map_Forall (λ _ r, coherent r) (records init)
  ∧ map_Forall (λ _ r, coherent r) (records m').
Proof.
  intros m'.
  assert (Hinit : map_Forall (λ _ r, coherent r) (records init))
    by apply map_Forall_empty.
  split; [exact Hinit|].
  apply (records_stay_coherent env_telnet_only (Config (Some seven_nodes)) ∅
           init w0 h0 Hinit).
Defined.

(** ** Batch sizes that check nothing *)

(** X4. With [max_concurrent_checks] at 0 or below no node is probed. A
    negative value makes [range] empty: the cycle ends at once, silently,
    with the monitor, the network and the log untouched. The value 0 makes
    [range] raise: the cycle logs the error and writes no record. Both
    return the monitor to idle. *)
Theorem nonpositive_batch_size_checks_nothing (E : env) (nodes : list node)
    (app_settings : gmap string Z) (m : monitor) (w : world) (h : sched) :
  let max_concurrent := default 3 (app_settings !! "max_concurrent_checks") in
  let after := _check_connections_safely E (Config (Some nodes)) app_settings (m, w, h) in
  check_in_progress m = false →
  (max_concurrent < 0 → after = (Ok tt, (m, w, h)))
  ∧ (max_concurrent = 0 → nodes ≠ [] →
     after
     = (Ok tt,
        (m, w,
         log_message "Safe connection check error: range() arg 3 must not be zero"
           "ERROR" h))).
Proof.
  intros max_concurrent after Hidle. unfold after, _check_connections_safely.
  rewrite Hidle. unfold cycle_body.
  destruct nodes as [|n0 rest].
  - split; [|done]. intros _. cbn. by rewrite reset_flag_idle.
  - change (default [] (Some (n0 :: rest))) with (n0 :: rest).
    cbv beta iota zeta. fold max_concurrent. split.
    + intros Hneg.
      destruct (batches_nonpositive (n0 :: rest) max_concurrent) as [[H0 _]|[_ ->]];
        [lia|lia|].
      cbn. by rewrite reset_flag_idle.
    + intros Hzero _.
      destruct (batches_nonpositive (n0 :: rest) max_concurrent) as [[_ ->]|[H0 _]];
        [lia| |lia].
      by rewrite reset_flag_idle.
Qed.

Lemma nonpositive_batch_size_checks_nothing_witness :
  check_in_progress init = false
  ∧ default 3 (({[ "max_concurrent_checks" := -1 ]} : gmap string Z)
               !! "max_concurrent_checks") < 0
  ∧ _check_connections_safely env_open (Config (Some seven_nodes))
      {[ "max_concurrent_checks" := -1 ]} (init, w0, h0)
    = (Ok tt, (init, w0, h0)).
Proof.
  assert (Hneg : default 3 (({[ "max_concurrent_checks" := -1 ]} : gmap string Z)
                            !! "max_concurrent_checks") < 0)
    by (vm_compute; reflexivity).
  split; [reflexivity|]. split; [exact Hneg|].
  destruct (nonpositive_batch_size_checks_nothing env_open seven_nodes
              {[ "max_concurrent_checks" := -1 ]} init w0 h0 eq_refl)
    as [Hsilent _].
  exact (Hsilent Hneg).
Defined.

(** ** Every node once *)








(** ** The monitor loop *)









(** ** [stop] ends the loop, not the checks *)

Lemma check_single_node_stop (E : env) (n : node) (timeout : Z) (m : monitor)
    (w : world) :
  _check_single_node E n timeout (stop m, w)
  = (stop (fst (_check_single_node E n timeout (m, w))),
     snd (_check_single_node E n timeout (m, w))).
Proof.
  destruct (check_single_node_eq E n timeout m w) as (b1 & rt1 & w1 & Hp1 & ->).
  destruct (check_single_node_eq E n timeout (stop m) w)
    as (b2 & rt2 & w2 & Hp2 & ->).
  rewrite Hp1 in Hp2. by injection Hp2 as <- <- <-.
Qed.

Lemma start_threads_stop (E : env) (timeout : Z) (batch : list node) :
  ∀ m w h res m' w' h',
    start_threads E timeout batch (m, w, h) = (res, (m', w', h')) →
    start_threads E timeout batch (stop m, w, h) = (res, (stop m', w', h')).
Proof.
  induction batch as [|n rest IH]; intros m w h res m' w' h';
    cbn [start_threads].
  - by intros [= <- <- <- <-].
  - destruct (can_start E (started h)); [|by intros [= <- <- <- <-]].
    rewrite check_single_node_stop.
    destruct (_check_single_node E n timeout (m, w)) as [m1 w1]. apply IH.
Qed.

Lemma run_batches_stop (E : env) (timeout : Z) (bs : list (list node)) :
  ∀ m w h res m' w' h',
    run_batches E timeout bs (m, w, h) = (res, (m', w', h')) →
    run_batches E timeout bs (stop m, w, h) = (res, (stop m', w', h')).
Proof.
  induction bs as [|b rest IH]; intros m w h res m' w' h'; cbn [run_batches].
  - by intros [= <- <- <- <-].
  - destruct (start_threads E timeout b (m, w, h)) as [r1 [[m1 w1] h1]] eqn:Hb.
    rewrite (start_threads_stop E timeout b m w h r1 m1 w1 h1 Hb).
    destruct r1; [apply IH|by intros [= <- <- <- <-]].
Qed.

Lemma cycle_body_stop (E : env) (cfg : config_file)
    (app_settings : gmap string Z) (m : monitor) (w : world) (h : sched)
    (res : result unit) (m' : monitor) (w' : world) (h' : sched) :
  cycle_body E cfg app_settings (m, w, h) = (res, (m', w', h')) →
  cycle_body E cfg app_settings (stop m, w, h) = (res, (stop m', w', h')).
Proof.
  unfold cycle_body.
  destruct cfg as [|e|config_nodes]; try by intros [= <- <- <- <-].
  destruct (default [] config_nodes) as [|n0 rest];
    [by intros [= <- <- <- <-]|].
  destruct (batches _ _) as [bs|e]; [apply run_batches_stop|].
  by intros [= <- <- <- <-].
Qed.

(** X8. [stop] only ends the monitor loop. A check cycle that runs after it,
    on the immediate-check thread or on a thread of [force_check], does what
    it would have done without it: it returns the same result, writes the
    same records and logs the same lines; only [running] differs. *)
Theorem stop_does_not_cancel_checks (E : env) (cfg : config_file)
    (app_settings : gmap string Z) (m : monitor) (w : world) (h : sched)
    (res : result unit) (m' : monitor) (w' : world) (h' : sched) :
  _check_connections_safely E cfg app_settings (m, w, h) = (res, (m', w', h')) →
  _check_connections_safely E cfg app_settings (stop m, w, h)
  = (res, (stop m', w', h'))
  ∧ store (stop m') = store m'
  ∧ records (stop m') = records m'
  ∧ running (stop m') = false.
Proof.
  intros Hcycle. split; [|done].
  revert Hcycle. unfold _check_connections_safely.
  change (check_in_progress (stop m)) with (check_in_progress m).
  destruct (check_in_progress m); [by intros [= <- <- <- <-]|].
  change (set_check_in_progress true (stop m))
    with (stop (set_check_in_progress true m)).
  destruct (cycle_body E cfg app_settings (set_check_in_progress true m, w, h))
    as [r1 [[m1 w1] h1]] eqn:Hbody.
  rewrite (cycle_body_stop E cfg app_settings _ w h r1 m1 w1 h1 Hbody).
  destruct r1; by intros [= <- <- <- <-].
Qed.

Lemma stop_does_not_cancel_checks_witness :
  ∃ m' w' h',
    _check_connections_safely env_refusing (Config (Some [R1])) ∅ (init, w0, h0)
    = (Ok tt, (m', w', h'))
    ∧ _check_connections_safely env_refusing (Config (Some [R1])) ∅
        (stop init, w0, h0)
      = (Ok tt, (stop m', w', h')).
Proof.
  destruct (_check_connections_safely env_refusing (Config (Some [R1])) ∅
              (init, w0, h0))
    as [res [[m' w'] h']] eqn:Hcycle.
  assert (Hres : res = Ok tt).
  { destruct (cycle_is_workers env_refusing (Config (Some [R1])) ∅ init w0 h0)
      as (j & h1 & Heq).
    rewrite Hcycle in Heq. by injection Heq. }
  subst res. exists m', w', h'. split; [reflexivity|].
  apply (stop_does_not_cancel_checks env_refusing (Config (Some [R1])) ∅
           init w0 h0 (Ok tt) m' w' h' Hcycle).
Defined.

(** ** Two requests, one cycle *)

Lemma lookup_app_length {A : Type} (l : list A) (x : A) (rest : list A) :
  (l ++ x :: rest) !! length l = Some x.
Proof. induction l as [|a l IH]; [done|]. exact IH. Qed.

Lemma insert_app_length {A : Type} (l : list A) (x y : A) (rest : list A) :
  <[length l := y]> (l ++ x :: rest) = l ++ y :: rest.
Proof.
  induction l as [|a l IH]; [done|].
  change (a :: <[length l := y]> (l ++ x :: rest) = a :: (l ++ y :: rest)).
  by rewrite IH.
Qed.

Lemma lookup_app_S_length {A : Type} (l : list A) (x y : A) (rest : list A) :
  (l ++ x :: y :: rest) !! S (length l) = Some y.
Proof. induction l as [|a l IH]; [done|]. exact IH. Qed.

Lemma insert_app_S_length {A : Type} (l : list A) (x y z : A) (rest : list A) :
  <[S (length l) := z]> (l ++ x :: y :: rest) = l ++ x :: z :: rest.
Proof.
  induction l as [|a l IH]; [done|].
  change (a :: <[S (length l) := z]> (l ++ x :: y :: rest)
          = a :: (l ++ x :: z :: rest)).
  by rewrite IH.
Qed.

(** X9. [force_check] answers from the flag alone, and the flag is set by
    the thread it starts, not by [force_check]. Two calls made while the
    monitor is idle, before the first thread has run, both return true and
    both start a thread; when the threads run one after the other, the first
    enters a cycle and the second finds the flag set and leaves without one.
    So a true answer promises that a cycle is due, not a cycle of its own. *)
Theorem second_force_check_is_dropped (p : Guard.pool) :
  Guard.check_in_progress p = false →
  let i := length (Guard.threads p) in
  let p1 := snd (Guard.force_check p) in
  let p2 := snd (Guard.force_check p1) in
  let p3 := Guard.run false [Guard.Run i; Guard.Run i; Guard.Run (S i)] p2 in
  fst (Guard.force_check p) = true
  ∧ fst (Guard.force_check p1) = true
  ∧ p2 = Guard.Pool false (Guard.loop_thread p)
           (Guard.threads p ++ [Guard.AtGuard; Guard.AtGuard])
  ∧ p3 = Guard.Pool true (Guard.loop_thread p)
           (Guard.threads p ++ [Guard.InCycle; Guard.Outside])
  ∧ Guard.cycles_in_progress p3 = S (Guard.cycles_in_progress p).
Proof.
  destruct p as [flag lt ts]. intros Hflag i p1 p2 p3.
  cbn in Hflag. subst flag. cbn [Guard.threads Guard.loop_thread] in *.
  assert (H2 : p2 = Guard.Pool false lt (ts ++ [Guard.AtGuard; Guard.AtGuard])).
  { unfold p2, p1. cbn. by rewrite <- app_assoc. }
  assert (H3 : p3 = Guard.Pool true lt (ts ++ [Guard.InCycle; Guard.Outside])).
  { unfold p3. rewrite H2. unfold Guard.run, i. cbn [foldl].
    unfold Guard.exec at 3.
    cbn [Guard.threads Guard.check_in_progress Guard.loop_thread].
    rewrite lookup_app_length. cbn [Guard.step_pc]. rewrite insert_app_length.
    unfold Guard.exec at 2.
    cbn [Guard.threads Guard.check_in_progress Guard.loop_thread].
    rewrite lookup_app_length. cbn [Guard.step_pc]. rewrite insert_app_length.
    unfold Guard.exec.
    cbn [Guard.threads Guard.check_in_progress Guard.loop_thread].
    rewrite lookup_app_S_length. cbn [Guard.step_pc].
    by rewrite insert_app_S_length. }
  split; [done|]. split; [done|]. split; [done|]. split; [done|].
  rewrite H3. unfold Guard.cycles_in_progress.
  cbn [Guard.threads Guard.loop_thread].
  rewrite !count_cons, count_app, !count_cons. cbn. lia.
Qed.

Lemma second_force_check_is_dropped_witness :
  Guard.check_in_progress Guard.after_start = false
  ∧ Guard.run false [Guard.Run 1; Guard.Run 1; Guard.Run 2]
      (snd (Guard.force_check (snd (Guard.force_check Guard.after_start))))
    = Guard.Pool true Guard.Outside
        [Guard.AtGuard; Guard.InCycle; Guard.Outside].
Proof.
  split; [reflexivity|].
  destruct (second_force_check_is_dropped Guard.after_start eq_refl)
    as (_ & _ & _ & Hrun & _).
  exact Hrun.
Defined.

(** ** The connection display *)

Lemma count_if_cons (P : HealthRecord.t → bool) (item : string * HealthRecord.t)
    (items : list (string * HealthRecord.t)) :
  Display.count_if P (item :: items)
  = if P (snd item) then 1 + Display.count_if P items
    else Display.count_if P items.
Proof. reflexivity. Qed.

Lemma healthy_response_sum_cons (item : string * HealthRecord.t)
    (items : list (string * HealthRecord.t)) :
  Display.healthy_response_sum (item :: items)
  = if bool_decide (HealthRecord.status (snd item) = Healthy)
    then HealthRecord.response_time (snd item) + Display.healthy_response_sum items
    else Display.healthy_response_sum items.
Proof. reflexivity. Qed.

Lemma tally_from (items : list (string * HealthRecord.t)) :
  ∀ t : Display.tally,
    foldl (λ t item, Display.count_node t (snd item)) t items
    = Display.Tally
        (Display.healthy_nodes t
         + Display.count_if (λ n, bool_decide (HealthRecord.status n = Healthy)) items)
        (Display.unhealthy_nodes t
         + Display.count_if (λ n, negb (bool_decide (HealthRecord.status n = Healthy))) items)
        (Display.total_response_time t + Display.healthy_response_sum items).
Proof.
  induction items as [|[name r] rest IH]; intros [hn un tr]; cbn [foldl].
  - cbn. f_equal; lia.
  - rewrite IH, !count_if_cons, healthy_response_sum_cons.
    unfold Display.count_node. cbn [snd].
    destruct (HealthRecord.status r);
      cbn [Display.healthy_nodes Display.unhealthy_nodes
           Display.total_response_time bool_decide decide_rel negb];
      repeat case_bool_decide; try done; cbn [negb]; f_equal; lia.
Qed.

Lemma count_if_bounds (P : HealthRecord.t → bool)
    (items : list (string * HealthRecord.t)) :
  0 ≤ Display.count_if P items ≤ Z.of_nat (length items).
Proof.
  induction items as [|item rest IH]; cbn [Display.count_if foldr length].
  - lia.
  - fold (Display.count_if P rest). destruct (P (snd item)); lia.
Qed.

Lemma count_if_split (P : HealthRecord.t → bool)
    (items : list (string * HealthRecord.t)) :
  Display.count_if P items + Display.count_if (λ n, negb (P n)) items
  = Z.of_nat (length items).
Proof.
  induction items as [|item rest IH]; cbn [Display.count_if foldr length].
  - lia.
  - fold (Display.count_if P rest) (Display.count_if (λ n, negb (P n)) rest).
    destruct (P (snd item)); cbn [negb]; lia.
Qed.

Lemma count_if_le (P Q : HealthRecord.t → bool)
    (items : list (string * HealthRecord.t)) :
  (∀ n, P n = true → Q n = true) →
  Display.count_if P items ≤ Display.count_if Q items.
Proof.
  intros HPQ.
  induction items as [|item rest IH]; cbn [Display.count_if foldr]; [lia|].
  fold (Display.count_if P rest) (Display.count_if Q rest).
  destruct (P (snd item)) eqn:HP.
  - rewrite (HPQ _ HP). lia.
  - destruct (Q (snd item)); lia.
Qed.

Lemma count_if_disjoint (P Q : HealthRecord.t → bool)
    (items : list (string * HealthRecord.t)) :
  (∀ n, P n = true → Q n = false) →
  Display.count_if P items + Display.count_if Q items ≤ Z.of_nat (length items).
Proof.
  intros HPQ.
  induction items as [|item rest IH]; cbn [Display.count_if foldr length]; [lia|].
  fold (Display.count_if P rest) (Display.count_if Q rest).
  destruct (P (snd item)) eqn:HP.
  - rewrite (HPQ _ HP). lia.
  - destruct (Q (snd item)); lia.
Qed.

Lemma count_if_perm (P : HealthRecord.t → bool)
    (items items' : list (string * HealthRecord.t)) :
  items ≡ₚ items' → Display.count_if P items = Display.count_if P items'.
Proof.
  induction 1 as [|x l l' _ IH|x y l|l l' l'' _ IH1 _ IH2];
    cbn [Display.count_if foldr] in *.
  - done.
  - fold (Display.count_if P l) (Display.count_if P l'). by rewrite IH.
  - destruct (P (snd x)), (P (snd y)); lia.
  - congruence.
Qed.

Lemma healthy_response_sum_perm (items items' : list (string * HealthRecord.t)) :
  items ≡ₚ items' →
  Display.healthy_response_sum items = Display.healthy_response_sum items'.
Proof.
  induction 1 as [|x l l' _ IH|x y l|l l' l'' _ IH1 _ IH2];
    cbn [Display.healthy_response_sum foldr] in *.
  - done.
  - fold (Display.healthy_response_sum l) (Display.healthy_response_sum l').
    by rewrite IH.
  - repeat case_bool_decide; lia.
  - congruence.
Qed.

Lemma healthy_response_sum_coherent (items : list (string * HealthRecord.t)) :
  Forall (λ item, coherent (snd item)) items →
  Display.count_if (λ n, bool_decide (HealthRecord.status n = Healthy)) items
  ≤ Display.healthy_response_sum items
  ∧ Display.error_nodes items = 0.
Proof.
  unfold Display.error_nodes.
  induction 1 as [|item rest Hitem _ IH]; [done|].
  rewrite !count_if_cons, healthy_response_sum_cons.
  unfold coherent in Hitem.
  destruct (HealthRecord.status (snd item)); [| |done];
    repeat case_bool_decide; try done; lia.
Qed.

(** X10. The statistics of the connection display add up for every mapping.
    Every record is counted once, as healthy or as unhealthy, so the two
    counts sum to the number of records; a record with status Error counts
    as unhealthy; the ssh and telnet counts together do not exceed the
    total. The counts do not depend on the order in which the records are
    visited. For coherent records (which is all the monitor writes) there is
    no Error record and the summed response time is at least the number of
    healthy nodes, so a displayed average is at least 1 ms. Statistics are
    shown exactly when the mapping has a record. *)
Theorem connection_statistics_add_up (items : list (string * HealthRecord.t)) :
  let t := Display.tally_nodes items in
  (Display.total_nodes t = Z.of_nat (length items)
   ∧ 0 ≤ Display.healthy_nodes t ∧ 0 ≤ Display.unhealthy_nodes t)
  ∧ Display.error_nodes items ≤ Display.unhealthy_nodes t
  ∧ Display.ssh_nodes items + Display.telnet_nodes items ≤ Display.total_nodes t
  ∧ (∀ items', items ≡ₚ items' →
       Display.tally_nodes items' = t
       ∧ Display.error_nodes items' = Display.error_nodes items)
  ∧ (Forall (λ item, coherent (snd item)) items →
     Display.healthy_nodes t ≤ Display.total_response_time t
     ∧ Display.error_nodes items = 0)
  ∧ (Display.statistics items = None ↔ items = []).
Proof.
  intros t.
  assert (Ht : t = Display.Tally
                 (Display.count_if (λ n, bool_decide (HealthRecord.status n = Healthy)) items)
                 (Display.count_if (λ n, negb (bool_decide (HealthRecord.status n = Healthy))) items)
                 (Display.healthy_response_sum items)).
  { unfold t, Display.tally_nodes. by rewrite tally_from. }
  pose proof (count_if_split (λ n, bool_decide (HealthRecord.status n = Healthy)) items)
    as Hsplit.
  pose proof (count_if_bounds (λ n, bool_decide (HealthRecord.status n = Healthy)) items).
  pose proof (count_if_bounds
                (λ n, negb (bool_decide (HealthRecord.status n = Healthy))) items).
  rewrite Ht. unfold Display.total_nodes.
  cbn [Display.healthy_nodes Display.unhealthy_nodes Display.total_response_time].
  split; [repeat split; lia|]. split; [|split; [|split; [|split]]].
  - apply count_if_le. intros n Hn. apply bool_decide_eq_true in Hn.
    rewrite Hn. done.
  - rewrite Hsplit. apply count_if_disjoint. intros n Hn.
    apply String.eqb_eq in Hn. rewrite Hn. done.
  - intros items' Hperm. split.
    + unfold Display.tally_nodes. rewrite tally_from. cbn.
      rewrite <- !(count_if_perm _ items items' Hperm).
      by rewrite <- (healthy_response_sum_perm items items' Hperm).
    + unfold Display.error_nodes. symmetry. by apply count_if_perm.
  - apply healthy_response_sum_coherent.
  - destruct items; cbn; split; done.
Qed.

Lemma connection_statistics_add_up_witness :
  let items := [("R1", HealthRecord.mk "127.0.0.1" "ssh" Healthy 1 (fast_clock 2)
                         (_get_recommendation true 1 "ssh"));
                ("R2", HealthRecord.mk "10.0.0.2" "telnet" Unhealthy 0 (fast_clock 5)
                         (_get_recommendation false 0 "telnet"))] in
  Forall (λ item, coherent (snd item)) items
  ∧ Display.healthy_nodes (Display.tally_nodes items)
    ≤ Display.total_response_time (Display.tally_nodes items)
  ∧ Display.error_nodes items = 0.
Proof.
  intros items.
  assert (Hco : Forall (λ item, coherent (snd item)) items).
  { repeat constructor; cbn; lia. }
  split; [exact Hco|].
  destruct (connection_statistics_add_up items) as (_ & _ & _ & _ & Hsum & _).
  exact (Hsum Hco).
Defined.

(** * Properties of the process manager *)

Section ProcessManagerProofs.
Import ProcessManager.

Lemma set_lock_release (m : manager) :
  lock_held m = false → set_lock false (set_lock true m) = m.
Proof. destruct m. cbn. by intros ->. Qed.

(** X11. [kill_all] takes [process_lock] and then calls [kill_process],
    which takes it again. The lock is not reentrant, so with at least one
    tracked script [kill_all] never returns and kills nothing; with none it
    returns 0. A script that was just launched is enough. *)
Theorem kill_all_blocks_on_its_own_lock (O : os) (m : manager) :
  lock_held m = false →
  (processes m = ∅ → kill_all O m = Returns 0 m)
  ∧ (processes m ≠ ∅ → kill_all O m = Blocks)
  ∧ (∀ script_key script_info message m',
       launch_script O script_key script_info m = Returns (true, message) m' →
       kill_all O m' = Blocks).
Proof.
  intros Hlock.
  assert (Hnonempty : ∀ m0 : manager,
            lock_held m0 = false → processes m0 ≠ ∅ → kill_all O m0 = Blocks).
  { intros m0 Hl Hne. unfold kill_all. rewrite Hl.
    destruct (map_to_list (processes m0)) as [|[k i] rest] eqn:Hlist.
    - by apply map_to_list_empty_iff in Hlist.
    - reflexivity. }
  split; [|split].
  - intros Hempty. unfold kill_all. rewrite Hlock, Hempty, map_to_list_empty.
    cbn. by rewrite set_lock_release.
  - by apply Hnonempty.
  - intros script_key script_info message m' Hlaunch.
    unfold launch_script, launch_failed in Hlaunch.
    destruct (script_info !! "file") as [script_file|];
      destruct (script_info !! "name") as [script_name|]; try discriminate.
    destruct (file_exists O script_file); cbn in Hlaunch; [|discriminate].
    destruct (popen O (launched m) script_file) as [p|e]; [|discriminate].
    rewrite Hlock in Hlaunch. injection Hlaunch as _ <-.
    apply Hnonempty; [done|]. cbn. apply insert_non_empty.
Qed.

Lemma kill_all_blocks_on_its_own_lock_witness :
  let O := Os false (λ _, true) (λ n _, Ok (4000 + Z.of_nat n)) (λ _, true)
              (λ _, Delivered) fast_clock in
  let script_info : gmap string string :=
    {[ "name" := "Backup Manager"; "file" := "backup.py" ]} in
  lock_held init = false
  ∧ ∃ m',
      launch_script O "backup" script_info init
      = Returns (true, "Launched Backup Manager (PID: 4000)") m'
      ∧ kill_all O m' = Blocks.
Proof.
  intros O script_info. split; [reflexivity|].
  destruct (launch_script O "backup" script_info init) as [[ok msg] m'| |]
    eqn:Hlaunch; try (vm_compute in Hlaunch; discriminate Hlaunch).
  assert (Hok : (ok, msg) = (true, "Launched Backup Manager (PID: 4000)")).
  { vm_compute in Hlaunch. by injection Hlaunch as <- <- _. }
  injection Hok as -> ->. exists m'. split; [reflexivity|].
  destruct (kill_all_blocks_on_its_own_lock O init eq_refl) as (_ & _ & Hblocks).
  exact (Hblocks "backup" script_info _ m' Hlaunch).
Defined.



Lemma launch_script_success (O : os) (script_key : string)
    (script_info : gmap string string) (m : manager) (message : string)
    (m' : manager) :
  launch_script O script_key script_info m = Returns (true, message) m' →
  ∃ script_name script_file p,
    script_info !! "name" = Some script_name
    ∧ script_info !! "file" = Some script_file
    ∧ file_exists O script_file = true
    ∧ popen O (launched m) script_file = Ok p
    ∧ lock_held m = false
    ∧ message = "Launched " +:+ script_name +:+ " (PID: " +:+ pretty p +:+ ")"
    ∧ m' = Manager
             (<[script_key := Info script_name script_file (now O (clock_reads m))
                                p Running]> (processes m))
             false ({[p]} ∪ alive m) (S (launched m)) (S (clock_reads m))
             (log m ++ [("LAUNCH", message)]).
Proof.
  unfold launch_script, launch_failed.
  destruct (script_info !! "file") as [script_file|];
    destruct (script_info !! "name") as [script_name|]; try discriminate.
  destruct (file_exists O script_file) eqn:Hexists; cbn [negb]; [|discriminate].
  destruct (popen O (launched m) script_file) as [p|e] eqn:Hpopen; [|discriminate].
  destruct (lock_held m); [discriminate|].
  intros [= <- <-]. exists script_name, script_file, p. by repeat split.
Qed.

(** X13. Launching and then stopping a script leaves the table as it was
    without the key: the entry that [launch_script] put in is the one
    [kill_process] takes out, so for a key that was not tracked before the
    table is back to what it was. The launched process is not alive
    afterwards, and the log holds one LAUNCH and then one STOP line or one
    ERROR line more. *)
Theorem launch_then_kill_round_trip (O : os) (script_key : string)
    (script_info : gmap string string) (m m1 m2 : manager)
    (message1 message2 : string) :
  launch_script O script_key script_info m = Returns (true, message1) m1 →
  kill_process O script_key m1 = Returns (true, message2) m2 →
  processes m2 = delete script_key (processes m)
  ∧ (processes m !! script_key = None → processes m2 = processes m)
  ∧ (∃ p, processes m1 !! script_key
          = Some (Info (default "" (script_info !! "name"))
                    (default "" (script_info !! "file"))
                    (now O (clock_reads m)) p Running)
          ∧ p ∈ alive m1 ∧ p ∉ alive m2)
  ∧ log m2 = log m ++ [("LAUNCH", message1); ("STOP", message2)].
Proof.
  intros Hlaunch Hkill.
  destruct (launch_script_success O script_key script_info m message1 m1 Hlaunch)
    as (script_name & script_file & p & Hname & Hfile & _ & _ & Hlock & _ & ->).
  set (tracked := Info script_name script_file (now O (clock_reads m)) p Running) in *.
  unfold kill_process in Hkill. cbn [processes lock_held alive] in Hkill.
  rewrite lookup_insert_eq in Hkill. cbn [pid name] in Hkill.
  assert (Hm2 : m2 = Manager (delete script_key (<[script_key := tracked]> (processes m)))
                       false (({[p]} ∪ alive m) ∖ {[p]}) (S (launched m))
                       (S (clock_reads m))
                       ((log m ++ [("LAUNCH", message1)]) ++ [("STOP", message2)])
                ∧ True).
  { cbv zeta in Hkill.
    rewrite bool_decide_eq_true_2 in Hkill
      by (apply elem_of_union_l; by apply elem_of_singleton).
    unfold tracked in Hkill.
    cbn [pid name launched clock_reads log processes alive] in Hkill.
    fold tracked in Hkill.
    destruct (obeys_terminate O p); [by injection Hkill as <- <-|].
    destruct (windows O); [by injection Hkill as <- <-|].
    destruct (os_kill O p); [by injection Hkill as <- <-
                            |by injection Hkill as <- <-|discriminate]. }
  destruct Hm2 as [-> _]. cbn [processes alive log].
  rewrite delete_insert_eq. split; [done|]. split; [|split].
  - intros Hnone. by apply delete_id.
  - exists p. rewrite lookup_insert_eq, Hname, Hfile. cbn.
    split; [done|]. split.
    + apply elem_of_union_l. by apply elem_of_singleton.
    + intros Hin. apply elem_of_difference in Hin as [_ Hn].
      apply Hn. by apply elem_of_singleton.
  - by rewrite <- app_assoc.
Qed.

Lemma launch_then_kill_round_trip_witness :
  let O := Os false (λ _, true) (λ n _, Ok (4000 + Z.of_nat n)) (λ _, true)
              (λ _, Delivered) fast_clock in
  let script_info : gmap string string :=
    {[ "name" := "Backup Manager"; "file" := "backup.py" ]} in
  ∃ m1 m2,
    launch_script O "backup" script_info init
    = Returns (true, "Launched Backup Manager (PID: 4000)") m1
    ∧ kill_process O "backup" m1
      = Returns (true, "Killed Backup Manager (PID: 4000)") m2
    ∧ processes m2 = processes init.
Proof.
  intros O script_info.
  set (m1 := match launch_script O "backup" script_info init with
             | Returns _ m => m
             | _ => init
             end).
  set (m2 := match kill_process O "backup" m1 with
             | Returns _ m => m
             | _ => init
             end).
  assert (Hlaunch : launch_script O "backup" script_info init
                    = Returns (true, "Launched Backup Manager (PID: 4000)") m1)
    by (vm_compute; reflexivity).
  assert (Hkill : kill_process O "backup" m1
                  = Returns (true, "Killed Backup Manager (PID: 4000)") m2)
    by (vm_compute; reflexivity).
  exists m1, m2. split; [exact Hlaunch|]. split; [exact Hkill|].
  destruct (launch_then_kill_round_trip O "backup" script_info init m1 m2 _ _
              Hlaunch Hkill) as (_ & Hback & _).
  apply Hback. reflexivity.
Defined.

(** X14. [launch_script] does not look whether the key is tracked already.
    A second launch under the same key replaces the entry of the first, so
    the table does not grow; [kill_process] then stops the second process
    only. The first process is still alive and no entry refers to it any
    more: the manager can neither show it nor stop it. *)
Theorem relaunch_orphans_first_process (O : os) (script_key : string)
    (script_info : gmap string string) (m m1 m2 m3 : manager)
    (message1 message2 message3 : string) :
  launch_script O script_key script_info m = Returns (true, message1) m1 →
  launch_script O script_key script_info m1 = Returns (true, message2) m2 →
  kill_process O script_key m2 = Returns (true, message3) m3 →
  ∃ first second,
    processes m1 !! script_key = Some first
    ∧ processes m2 !! script_key = Some second
    ∧ dom (processes m2) = dom (processes m1)
    ∧ processes m3 !! script_key = None
    ∧ (pid first ≠ pid second →
       pid first ∈ alive m3
       ∧ ∀ key tracked, processes m3 !! key = Some tracked →
           processes m !! key = Some tracked ∧ key ≠ script_key).
Proof.
  intros Hl1 Hl2 Hkill.
  destruct (launch_script_success O script_key script_info m message1 m1 Hl1)
    as (n1 & f1 & p1 & Hname & Hfile & _ & _ & _ & _ & ->).
  destruct (launch_script_success O script_key script_info _ message2 m2 Hl2)
    as (n2 & f2 & p2 & Hname2 & Hfile2 & _ & _ & _ & _ & ->).
  cbn [processes alive launched clock_reads log] in *.
  unfold kill_process in Hkill. cbn [processes lock_held alive] in Hkill.
  rewrite lookup_insert_eq in Hkill. cbv zeta in Hkill.
  cbn [pid name launched clock_reads log processes alive] in Hkill.
  assert (Hm3 : processes m3
                = delete script_key
                    (<[script_key := Info n2 f2 (now O (S (clock_reads m))) p2 Running]>
                       (<[script_key := Info n1 f1 (now O (clock_reads m)) p1 Running]>
                          (processes m)))
                ∧ alive m3 = ({[p2]} ∪ ({[p1]} ∪ alive m)) ∖ {[p2]}).
  { rewrite bool_decide_eq_true_2 in Hkill
      by (apply elem_of_union_l; by apply elem_of_singleton).
    destruct (obeys_terminate O p2); [by injection Hkill as _ <-|].
    destruct (windows O); [by injection Hkill as _ <-|].
    destruct (os_kill O p2); [by injection Hkill as _ <-
                             |by injection Hkill as _ <-|discriminate]. }
  destruct Hm3 as [Hp3 Ha3].
  eexists _, _. split; [apply lookup_insert_eq|]. split; [apply lookup_insert_eq|].
  split; [|split].
  - rewrite !dom_insert_L. by rewrite (assoc_L (∪)), (idemp_L (∪)).
  - rewrite Hp3. apply lookup_delete_eq.
  - cbn [pid]. intros Hne. split.
    + rewrite Ha3. apply elem_of_difference. split.
      * apply elem_of_union_r, elem_of_union_l. by apply elem_of_singleton.
      * intros Hin. apply elem_of_singleton in Hin. done.
    + intros key tracked. rewrite Hp3, !delete_insert_eq.
      intros Hlook. apply lookup_delete_Some in Hlook as [Hkey Hlook]. done.
Qed.

Lemma relaunch_orphans_first_process_witness :
  let O := Os false (λ _, true) (λ n _, Ok (4000 + Z.of_nat n)) (λ _, true)
              (λ _, Delivered) fast_clock in
  let script_info : gmap string string :=
    {[ "name" := "Backup Manager"; "file" := "backup.py" ]} in
  ∃ m1 m2 m3,
    launch_script O "backup" script_info init
    = Returns (true, "Launched Backup Manager (PID: 4000)") m1
    ∧ launch_script O "backup" script_info m1
      = Returns (true, "Launched Backup Manager (PID: 4001)") m2
    ∧ kill_process O "backup" m2
      = Returns (true, "Killed Backup Manager (PID: 4001)") m3
    ∧ processes m3 = ∅
    ∧ 4000 ∈ alive m3.
Proof.
  intros O script_info.
  set (m1 := match launch_script O "backup" script_info init with
             | Returns _ m => m
             | _ => init
             end).
  set (m2 := match launch_script O "backup" script_info m1 with
             | Returns _ m => m
             | _ => init
             end).
  set (m3 := match kill_process O "backup" m2 with
             | Returns _ m => m
             | _ => init
             end).
  assert (Hl1 : launch_script O "backup" script_info init
                = Returns (true, "Launched Backup Manager (PID: 4000)") m1)
    by (vm_compute; reflexivity).
  assert (Hl2 : launch_script O "backup" script_info m1
                = Returns (true, "Launched Backup Manager (PID: 4001)") m2)
    by (vm_compute; reflexivity).
  assert (Hkill : kill_process O "backup" m2
                  = Returns (true, "Killed Backup Manager (PID: 4001)") m3)
    by (vm_compute; reflexivity).
  exists m1, m2, m3. split; [exact Hl1|]. split; [exact Hl2|].
  split; [exact Hkill|].
  destruct (relaunch_orphans_first_process O "backup" script_info init m1 m2 m3
              _ _ _ Hl1 Hl2 Hkill)
    as (first & second & H1 & H2 & _ & _ & Horphan).
  assert (Hfirst : pid first = 4000).
  { vm_compute in H1. by injection H1 as <-. }
  assert (Hsecond : pid second = 4001).
  { vm_compute in H2. by injection H2 as <-. }
  destruct Horphan as [Halive Hrest]; [rewrite Hfirst, Hsecond; discriminate|].
  split; [|by rewrite <- Hfirst].
  apply map_empty. intros key.
  destruct (processes m3 !! key) as [tracked|] eqn:Hkey; [|reflexivity].
  destruct (Hrest key tracked Hkey) as [Hinit _]. discriminate Hinit.
Defined.

Lemma refresh_idem (live : gset Z) (proc_info : info) :
  refresh live (refresh live proc_info) = refresh live proc_info.
Proof.
  unfold refresh. destruct (bool_decide (pid proc_info ∈ live)) eqn:Hlive.
  - by rewrite Hlive.
  - cbn. by rewrite Hlive.
Qed.

(** X15. [get_processes] never drops an entry: it returns the table with the
    same keys and the same name, file, start time and process id under each.
    An entry reads Running afterwards exactly when it read Running before
    and its process has not exited, so Finished is never undone; the table
    the manager keeps is the one it returned, and asking again at once gives
    the same answer. *)
Theorem get_processes_marks_finished (m : manager) :
  lock_held m = false →
  ∃ table m',
    get_processes m = Returns table m'
    ∧ processes m' = table
    ∧ dom table = dom (processes m)
    ∧ alive m' = alive m ∧ log m' = log m
    ∧ (∀ key before,
         processes m !! key = Some before →
         ∃ after,
           table !! key = Some after
           ∧ name after = name before ∧ file after = file before
           ∧ started after = started before ∧ pid after = pid before
           ∧ (status after = Running
              ↔ status before = Running ∧ pid before ∈ alive m))
    ∧ get_processes m' = Returns table m'.
Proof.
  intros Hlock. unfold get_processes. rewrite Hlock.
  eexists _, _. split; [done|]. cbn [processes lock_held alive log].
  split; [done|]. split; [apply dom_fmap_L|]. split; [done|]. split; [done|].
  split.
  - intros key before Hbefore. rewrite lookup_fmap, Hbefore. cbn.
    eexists. split; [done|]. unfold refresh.
    case_bool_decide as Halive; cbn.
    + repeat split; tauto.
    + repeat split; try done. by intros [_ ?].
  - assert (Hidem : refresh (alive m) <$> (refresh (alive m) <$> processes m)
                    = refresh (alive m) <$> processes m).
    { rewrite <- map_fmap_compose. apply map_fmap_ext. intros key i _.
      apply refresh_idem. }
    by rewrite Hidem.
Qed.

Lemma get_processes_marks_finished_witness :
  let exited := Info "Backup Manager" "backup.py" (fast_clock 0) 4000 Running in
  let m := Manager {[ "backup" := exited ]} false ∅ 1 1 [] in
  lock_held m = false
  ∧ ∃ table m',
      get_processes m = Returns table m'
      ∧ status <$> table !! "backup" = Some Finished.
Proof.
  intros exited m. split; [reflexivity|].
  destruct (get_processes_marks_finished m eq_refl)
    as (table & m' & Heq & _ & _ & _ & _ & Hkeys & _).
  exists table, m'. split; [exact Heq|].
  destruct (Hkeys "backup" exited eq_refl) as (after & -> & _ & _ & _ & _ & Hrun).
  cbn. destruct (status after); [|reflexivity].
  destruct (proj1 Hrun eq_refl) as [_ Hin]. by apply not_elem_of_empty in Hin.
Defined.

(** X16. How [launch_script] fails. A script whose file is not there is
    refused with (False, "Script file not found: <file>") and nothing is
    changed or logged. A description without a 'file' key gives (False,
    "Failed to launch <name>: 'file'") and one ERROR line. A description
    without a 'name' key makes the handler itself raise [KeyError]: the call
    raises instead of returning a pair. Whenever the answer is False the
    table and the live processes are as before. *)
Theorem launch_script_failures (O : os) (script_key : string)
    (script_info : gmap string string) (m : manager) :
  (script_info !! "name" = None →
   ∃ m', launch_script O script_key script_info m = Raises "'name'" m'
         ∧ processes m' = processes m ∧ log m' = log m)
  ∧ (∀ script_name,
       script_info !! "name" = Some script_name →
       script_info !! "file" = None →
       launch_script O script_key script_info m
       = Returns (false, "Failed to launch " +:+ script_name +:+ ": 'file'")
           (add_log "ERROR" ("Failed to launch " +:+ script_name +:+ ": 'file'") m))
  ∧ (∀ script_name script_file,
       script_info !! "name" = Some script_name →
       script_info !! "file" = Some script_file →
       file_exists O script_file = false →
       launch_script O script_key script_info m
       = Returns (false, "Script file not found: " +:+ script_file) m)
  ∧ (∀ message m',
       launch_script O script_key script_info m = Returns (false, message) m' →
       processes m' = processes m ∧ alive m' = alive m
       ∧ lock_held m' = lock_held m).
Proof.
  unfold launch_script, launch_failed. split; [|split; [|split]].
  - intros ->. destruct (script_info !! "file") as [script_file|]; eauto.
  - by intros script_name -> ->.
  - by intros script_name script_file -> -> ->.
  - intros message m'.
    destruct (script_info !! "file") as [script_file|];
      destruct (script_info !! "name") as [script_name|]; try discriminate.
    + destruct (file_exists O script_file); cbn [negb].
      * destruct (popen O (launched m) script_file) as [p|e].
        -- destruct (lock_held m); discriminate.
        -- by intros [= _ <-].
      * by intros [= _ <-].
    + by intros [= _ <-].
Qed.

Lemma launch_script_failures_witness :
  let O := Os false (λ _, false) (λ n _, Ok 4000) (λ _, true)
              (λ _, Delivered) fast_clock in
  let script_info : gmap string string :=
    {[ "name" := "Patch Creator"; "file" := "patch.py" ]} in
  script_info !! "name" = Some "Patch Creator"
  ∧ script_info !! "file" = Some "patch.py"
  ∧ file_exists O "patch.py" = false
  ∧ launch_script O "patch" script_info init
    = Returns (false, "Script file not found: patch.py") init.
Proof.
  intros O script_info.
  split; [reflexivity|]. split; [reflexivity|]. split; [reflexivity|].
  destruct (launch_script_failures O "patch" script_info init)
    as (_ & _ & Hmissing & _).
  apply (Hmissing "Patch Creator" "patch.py"); reflexivity.
Defined.

End ProcessManagerProofs.

(** * Properties of the system monitor *)

Section SystemMonitorProofs.
Import SystemMonitor.

Lemma Qlt_bool_true (a b : Q) : Qlt_bool a b = true ↔ (a < b)%Q.
Proof.
  unfold Qlt_bool. rewrite negb_true_iff. split.
  - intros Hle. apply Qnot_le_lt. intros Hba.
    apply Qle_bool_iff in Hba. congruence.
  - intros Hlt. destruct (Qle_bool b a) eqn:Hle; [|done].
    apply Qle_bool_iff in Hle. by apply Qlt_not_le in Hlt.
Qed.

Lemma Qlt_bool_false (a b : Q) : Qlt_bool a b = false ↔ (b <= a)%Q.
Proof.
  unfold Qlt_bool. rewrite negb_false_iff. apply Qle_bool_iff.
Qed.

Lemma Qlt_bool_spec (a b : Q) :
  (Qlt_bool a b = true ∧ (a < b)%Q) ∨ (Qlt_bool a b = false ∧ (b <= a)%Q).
Proof.
  destruct (Qlt_bool a b) eqn:H.
  - left. split; [done|]. by apply Qlt_bool_true.
  - right. split; [done|]. by apply Qlt_bool_false.
Qed.

(** X17. [_generate_improvements] never returns an empty list and never more
    than three suggestions. Each warning is given exactly when its reading
    is above its threshold: CPU above 80, memory above 85, user directory
    above 80; a reading equal to its threshold gives no warning. "System
    Healthy" is reported exactly when no warning is, and then alone. *)
Theorem improvements_follow_thresholds (current_user : string) (d : data) :
  let issues := issue <$> _generate_improvements current_user d in
  (1 ≤ length issues ≤ 3)%nat
  ∧ ("High CPU Usage" ∈ issues ↔ (80 # 1 < cpu_percent d)%Q)
  ∧ ("High Memory Usage" ∈ issues ↔ (85 # 1 < memory_percent d)%Q)
  ∧ ("High User Directory Usage" ∈ issues ↔ (80 # 1 < user_disk_usage d)%Q)
  ∧ ("System Healthy" ∈ issues
     ↔ (cpu_percent d <= 80 # 1)%Q ∧ (memory_percent d <= 85 # 1)%Q
       ∧ (user_disk_usage d <= 80 # 1)%Q)
  ∧ ("System Healthy" ∈ issues → issues = ["System Healthy"]).
Proof.
  intros issues. unfold issues, _generate_improvements.
  destruct (Qlt_bool_spec (80 # 1) (cpu_percent d)) as [[-> Hc]|[-> Hc]];
  destruct (Qlt_bool_spec (85 # 1) (memory_percent d)) as [[-> Hm]|[-> Hm]];
  destruct (Qlt_bool_spec (80 # 1) (user_disk_usage d)) as [[-> Hu]|[-> Hu]];
    cbn;
    (split; [lia|]);
    repeat split;
    try (intros; lra);
    try (intros; apply (proj1 (bool_decide_eq_true _)); vm_compute; reflexivity);
    try (intros Hin; exfalso; revert Hin;
         apply (proj1 (bool_decide_eq_false _)); vm_compute; reflexivity);
    try (intros (? & ? & ?); exfalso; lra);
    try (exfalso;
         match goal with H : _ ∈ _ |- _ => revert H end;
         apply (proj1 (bool_decide_eq_false _)); vm_compute; reflexivity).
Qed.

Lemma improvements_follow_thresholds_witness :
  let d := Data (80 # 1) (85 # 1) (80 # 1) in
  (cpu_percent d <= 80 # 1)%Q ∧ (memory_percent d <= 85 # 1)%Q
  ∧ (user_disk_usage d <= 80 # 1)%Q
  ∧ issue <$> _generate_improvements "paruljot" d = ["System Healthy"].
Proof.
  intros d.
  assert (Hc : (cpu_percent d <= 80 # 1)%Q) by (cbn; lra).
  assert (Hm : (memory_percent d <= 85 # 1)%Q) by (cbn; lra).
  assert (Hu : (user_disk_usage d <= 80 # 1)%Q) by (cbn; lra).
  split; [exact Hc|]. split; [exact Hm|]. split; [exact Hu|].
  destruct (improvements_follow_thresholds "paruljot" d)
    as (_ & _ & _ & _ & Hhealthy & Halone).
  apply Halone, Hhealthy. split; [exact Hc|]. split; [exact Hm|exact Hu].
Defined.

Ltac case_Qlt x b :=
  let Hb := fresh "Hb" in
  destruct (Qlt_bool_spec x b) as [[Hb ?]|[Hb ?]]; rewrite ?Hb; clear Hb.

Lemma cpu_level_eq (d : data) :
  status <$> (_generate_explanations d !! "cpu")
  = Some (if Qlt_bool (cpu_percent d) (30 # 1) then excellent
          else if Qlt_bool (cpu_percent d) (60 # 1) then good
          else if Qlt_bool (cpu_percent d) (80 # 1) then warning
          else critical).
Proof.
  unfold _generate_explanations.
  destruct (Qlt_bool (cpu_percent d) (30 # 1)),
           (Qlt_bool (cpu_percent d) (60 # 1)),
           (Qlt_bool (cpu_percent d) (80 # 1)),
           (Qlt_bool (memory_percent d) (50 # 1)),
           (Qlt_bool (memory_percent d) (75 # 1)),
           (Qlt_bool (memory_percent d) (90 # 1)); reflexivity.
Qed.

Lemma memory_level_eq (d : data) :
  status <$> (_generate_explanations d !! "memory")
  = Some (if Qlt_bool (memory_percent d) (50 # 1) then excellent
          else if Qlt_bool (memory_percent d) (75 # 1) then good
          else if Qlt_bool (memory_percent d) (90 # 1) then warning
          else critical).
Proof.
  unfold _generate_explanations.
  destruct (Qlt_bool (cpu_percent d) (30 # 1)),
           (Qlt_bool (cpu_percent d) (60 # 1)),
           (Qlt_bool (cpu_percent d) (80 # 1)),
           (Qlt_bool (memory_percent d) (50 # 1)),
           (Qlt_bool (memory_percent d) (75 # 1)),
           (Qlt_bool (memory_percent d) (90 # 1)); reflexivity.
Qed.

Lemma high_cpu_issue (current_user : string) (d : data) :
  "High CPU Usage" ∈ issue <$> _generate_improvements current_user d
  ↔ (80 # 1 < cpu_percent d)%Q.
Proof.
  unfold _generate_improvements.
  destruct (Qlt_bool_spec (80 # 1) (cpu_percent d)) as [[-> Hc]|[-> Hc]];
  destruct (Qlt_bool (85 # 1) (memory_percent d));
  destruct (Qlt_bool (80 # 1) (user_disk_usage d));
    cbn; split;
    try (intros; lra);
    try (intros; apply (proj1 (bool_decide_eq_true _)); vm_compute; reflexivity);
    try (intros Hin; exfalso; revert Hin;
         apply (proj1 (bool_decide_eq_false _)); vm_compute; reflexivity).
Qed.

Lemma high_memory_issue (current_user : string) (d : data) :
  "High Memory Usage" ∈ issue <$> _generate_improvements current_user d
  ↔ (85 # 1 < memory_percent d)%Q.
Proof.
  unfold _generate_improvements.
  destruct (Qlt_bool (80 # 1) (cpu_percent d));
  destruct (Qlt_bool_spec (85 # 1) (memory_percent d)) as [[-> Hm]|[-> Hm]];
  destruct (Qlt_bool (80 # 1) (user_disk_usage d));
    cbn; split;
    try (intros; lra);
    try (intros; apply (proj1 (bool_decide_eq_true _)); vm_compute; reflexivity);
    try (intros Hin; exfalso; revert Hin;
         apply (proj1 (bool_decide_eq_false _)); vm_compute; reflexivity).
Qed.

(** X18. [_generate_explanations] always describes both the CPU and the
    memory, and a higher reading never gets a milder level. Its levels and
    the warnings of [_generate_improvements] use different bounds. The CPU
    is critical from 80 on but the CPU warning needs more than 80: at
    exactly 80 the dashboard shows a critical CPU without a warning, and
    nowhere else. The memory warning starts above 85 while the memory is
    critical only from 90 on: between the two the warning comes with the
    level "warning". *)
Theorem explanations_against_warnings (current_user : string) (d d' : data) :
  let level_of (d : data) (key : string) :=
    status <$> (_generate_explanations d !! key) in
  let issues := issue <$> _generate_improvements current_user d in
  dom (_generate_explanations d) = {[ "cpu"; "memory" ]}
  ∧ (∀ c c', (cpu_percent d <= cpu_percent d')%Q →
       level_of d "cpu" = Some c → level_of d' "cpu" = Some c' →
       (severity c ≤ severity c')%nat)
  ∧ (∀ c c', (memory_percent d <= memory_percent d')%Q →
       level_of d "memory" = Some c → level_of d' "memory" = Some c' →
       (severity c ≤ severity c')%nat)
  ∧ (level_of d "cpu" = Some critical ↔ (80 # 1 <= cpu_percent d)%Q)
  ∧ (level_of d "memory" = Some critical ↔ (90 # 1 <= memory_percent d)%Q)
  ∧ ("High CPU Usage" ∈ issues → level_of d "cpu" = Some critical)
  ∧ (level_of d "cpu" = Some critical ∧ "High CPU Usage" ∉ issues
     ↔ (cpu_percent d == 80 # 1)%Q)
  ∧ ("High Memory Usage" ∈ issues ∧ level_of d "memory" = Some warning
     ↔ (85 # 1 < memory_percent d)%Q ∧ (memory_percent d < 90 # 1)%Q).
Proof.
  intros level_of issues. unfold level_of, issues.
  split; [|split; [|split; [|split; [|split; [|split; [|split]]]]]].
  - unfold _generate_explanations.
    destruct (Qlt_bool (cpu_percent d) (30 # 1)),
             (Qlt_bool (cpu_percent d) (60 # 1)),
             (Qlt_bool (cpu_percent d) (80 # 1)),
             (Qlt_bool (memory_percent d) (50 # 1)),
             (Qlt_bool (memory_percent d) (75 # 1)),
             (Qlt_bool (memory_percent d) (90 # 1));
      rewrite !dom_insert_L, dom_empty_L; set_solver.
  - intros c c' Hle. rewrite !cpu_level_eq. intros [= <-] [= <-].
    case_Qlt (cpu_percent d) (30 # 1);
    case_Qlt (cpu_percent d) (60 # 1);
    case_Qlt (cpu_percent d) (80 # 1);
    case_Qlt (cpu_percent d') (30 # 1);
    case_Qlt (cpu_percent d') (60 # 1);
    case_Qlt (cpu_percent d') (80 # 1);
      cbn; try lia; exfalso; lra.
  - intros c c' Hle. rewrite !memory_level_eq. intros [= <-] [= <-].
    case_Qlt (memory_percent d) (50 # 1);
    case_Qlt (memory_percent d) (75 # 1);
    case_Qlt (memory_percent d) (90 # 1);
    case_Qlt (memory_percent d') (50 # 1);
    case_Qlt (memory_percent d') (75 # 1);
    case_Qlt (memory_percent d') (90 # 1);
      cbn; try lia; exfalso; lra.
  - rewrite cpu_level_eq.
    case_Qlt (cpu_percent d) (30 # 1);
    case_Qlt (cpu_percent d) (60 # 1);
    case_Qlt (cpu_percent d) (80 # 1);
      split; try done; intros; exfalso; lra.
  - rewrite memory_level_eq.
    case_Qlt (memory_percent d) (50 # 1);
    case_Qlt (memory_percent d) (75 # 1);
    case_Qlt (memory_percent d) (90 # 1);
      split; try done; intros; exfalso; lra.
  - rewrite high_cpu_issue, cpu_level_eq. intros Hhigh.
    case_Qlt (cpu_percent d) (30 # 1);
    case_Qlt (cpu_percent d) (60 # 1);
    case_Qlt (cpu_percent d) (80 # 1);
      try done; exfalso; lra.
  - rewrite high_cpu_issue, cpu_level_eq.
    case_Qlt (cpu_percent d) (30 # 1);
    case_Qlt (cpu_percent d) (60 # 1);
    case_Qlt (cpu_percent d) (80 # 1);
      (split;
       [ intros [Hc Hno];
         first [ discriminate Hc
               | apply Qle_antisym; [apply Qnot_lt_le; exact Hno | assumption] ]
       | intros Heq;
         first [ exfalso; lra | split; [done | intros Hlt; lra] ] ]).
  - rewrite high_memory_issue, memory_level_eq.
    case_Qlt (memory_percent d) (50 # 1);
    case_Qlt (memory_percent d) (75 # 1);
    case_Qlt (memory_percent d) (90 # 1);
      (split;
       [ intros [Hhigh Hw]; first [ discriminate Hw | split; lra ]
       | intros [? ?]; first [ exfalso; lra | split; done ] ]).
Qed.

Lemma explanations_against_warnings_witness :
  let d := Data (80 # 1) (87 # 1) (0 # 1) in
  (cpu_percent d == 80 # 1)%Q
  ∧ status <$> (_generate_explanations d !! "cpu") = Some critical
  ∧ "High CPU Usage" ∉ issue <$> _generate_improvements "paruljot" d.
Proof.
  intros d.
  assert (Heq : (cpu_percent d == 80 # 1)%Q) by reflexivity.
  split; [exact Heq|].
  destruct (explanations_against_warnings "paruljot" d d)
    as (_ & _ & _ & _ & _ & _ & Hgap & _).
  exact (proj2 Hgap Heq).
Defined.

(** *** The largest files *)

Lemma insert_by_size_perm (x : string * Z) (l : list (string * Z)) :
  insert_by_size x l ≡ₚ x :: l.
Proof.
  induction l as [|y rest IH]; [reflexivity|].
  cbn [insert_by_size]. destruct (snd y <? snd x); [reflexivity|].
  rewrite IH. apply Permutation_swap.
Qed.

Lemma insert_by_size_sorted (x : string * Z) (l : list (string * Z)) :
  StronglySorted (λ a b, snd b ≤ snd a) l →
  StronglySorted (λ a b, snd b ≤ snd a) (insert_by_size x l).
Proof.
  induction l as [|y rest IH]; intros Hsorted.
  - repeat constructor.
  - cbn [insert_by_size]. apply StronglySorted_inv in Hsorted as [Hrest Hy].
    destruct (snd y <? snd x) eqn:Hlt.
    + apply Z.ltb_lt in Hlt. constructor; [by constructor|].
      constructor; [lia|].
      eapply Forall_impl; [exact Hy|]. intros z Hz. cbn in Hz. lia.
    + apply Z.ltb_ge in Hlt. constructor; [by apply IH|].
      rewrite insert_by_size_perm. by constructor.
Qed.

Lemma sort_from_perm (l acc : list (string * Z)) :
  foldl (λ sorted x, insert_by_size x sorted) acc l ≡ₚ acc ++ l.
Proof.
  revert acc. induction l as [|x l IH]; intros acc.
  - by rewrite app_nil_r.
  - cbn [foldl]. rewrite IH, insert_by_size_perm.
    cbn [app]. apply Permutation_middle.
Qed.

Lemma sort_from_sorted (l acc : list (string * Z)) :
  StronglySorted (λ a b, snd b ≤ snd a) acc →
  StronglySorted (λ a b, snd b ≤ snd a)
    (foldl (λ sorted x, insert_by_size x sorted) acc l).
Proof.
  revert acc. induction l as [|x l IH]; intros acc Hacc; [done|].
  cbn [foldl]. by apply IH, insert_by_size_sorted.
Qed.

Lemma sort_by_size_perm (l : list (string * Z)) : sort_by_size l ≡ₚ l.
Proof. unfold sort_by_size. by rewrite sort_from_perm. Qed.

Lemma sort_by_size_sorted (l : list (string * Z)) :
  StronglySorted (λ a b, snd b ≤ snd a) (sort_by_size l).
Proof. apply sort_from_sorted. constructor. Qed.

Lemma sorted_app_le (l1 l2 : list (string * Z)) (a b : string * Z) :
  StronglySorted (λ a b, snd b ≤ snd a) (l1 ++ l2) →
  a ∈ l1 → b ∈ l2 → snd b ≤ snd a.
Proof.
  induction l1 as [|y l1 IH]; intros Hsorted Ha Hb.
  - by apply elem_of_nil in Ha.
  - cbn in Hsorted. apply StronglySorted_inv in Hsorted as [Hrest Hy].
    apply elem_of_cons in Ha as [->|Ha]; [|by apply IH].
    rewrite Forall_forall in Hy. apply Hy, elem_of_app. by right.
Qed.

Lemma sorted_take (n : nat) (l : list (string * Z)) :
  StronglySorted (λ a b, snd b ≤ snd a) l →
  StronglySorted (λ a b, snd b ≤ snd a) (take n l).
Proof.
  intros Hsorted. revert n.
  induction Hsorted as [|x l Hl IH Hx]; intros [|n]; cbn; try constructor.
  - apply IH.
  - eapply Forall_take, Hx.
Qed.

Lemma over_1mb_elem (files : list walked) (p : string) (size : Z) :
  (p, size) ∈ over_1mb files ↔ (p, Some size) ∈ files ∧ 1048576 < size.
Proof.
  unfold over_1mb. rewrite list_elem_of_omap. split.
  - intros ([q [sz|]] & Hin & Hsome); cbn in Hsome; [|done].
    destruct (1024 * 1024 <? sz) eqn:Hbig; [|done].
    injection Hsome as -> ->. apply Z.ltb_lt in Hbig. split; [done|lia].
  - intros [Hin Hbig]. exists (p, Some size). split; [done|]. cbn.
    destruct (1024 * 1024 <? size) eqn:Hlt; [done|].
    apply Z.ltb_ge in Hlt. lia.
Qed.

(** X19. [_get_largest_files] reports the 15 largest files of more than
    1 MiB that the walk met (all of them when there are fewer), the largest
    first: every reported file was walked and is larger than 1 MiB, its path
    is the relative path of its full path, and a walked file of more than
    1 MiB is left out only when 15 files are reported that are all at least
    as large. A file whose size cannot be read is never reported. *)
Theorem largest_files_are_the_largest
    (relpath : string → string) (files : list walked) :
  let result := _get_largest_files relpath (Some files) in
  length result = (15 `min` length (over_1mb files))%nat
  ∧ (∀ f, f ∈ result →
       (1 < size_mb f)%Q ∧ path f = relpath (full_path f)
       ∧ ∃ size, size_mb f = size # 1048576
                 ∧ (full_path f, Some size) ∈ files)
  ∧ StronglySorted (λ a b, (size_mb b <= size_mb a)%Q) result
  ∧ (∀ p size, (p, Some size) ∈ files → 1048576 < size →
       (∃ f, f ∈ result ∧ full_path f = p ∧ size_mb f = size # 1048576)
       ∨ (length result = 15%nat
          ∧ ∀ f, f ∈ result → (size # 1048576 <= size_mb f)%Q)).
Proof.
  intros result. unfold result, _get_largest_files.
  set (sorted := sort_by_size (over_1mb files)).
  assert (Hperm : sorted ≡ₚ over_1mb files) by apply sort_by_size_perm.
  assert (Hsorted : StronglySorted (λ a b, snd b ≤ snd a) sorted)
    by apply sort_by_size_sorted.
  assert (Hin : ∀ x, x ∈ take 15 sorted → x ∈ over_1mb files).
  { intros x Hx. rewrite <- Hperm, <- (take_drop 15 sorted).
    apply elem_of_app. by left. }
  split; [|split; [|split]].
  - rewrite length_fmap, length_take, Hperm. lia.
  - intros f Hf. apply list_elem_of_fmap in Hf as ([q sz] & -> & Hq).
    apply Hin, over_1mb_elem in Hq as [Hwalked Hbig]. cbn.
    split; [unfold Qlt; cbn; lia|]. split; [done|]. by exists sz.
  - apply (sorted_take 15) in Hsorted.
    induction Hsorted as [|x l Hl IH Hx]; cbn; constructor.
    + apply IH. intros y Hy. apply Hin. by right.
    + apply Forall_fmap. eapply Forall_impl; [exact Hx|].
      intros y Hy. cbn in *. unfold Qle. cbn. lia.
  - intros p size Hwalked Hbig.
    assert (Hp : (p, size) ∈ sorted).
    { rewrite Hperm. by apply over_1mb_elem. }
    rewrite <- (take_drop 15 sorted) in Hp, Hsorted.
    apply elem_of_app in Hp as [Hp|Hp].
    + left. exists (LargeFile (relpath p) (size # 1048576) p).
      split; [|done]. apply list_elem_of_fmap. by exists (p, size).
    + right. split.
      * rewrite length_fmap, length_take.
        destruct (decide (15 ≤ length sorted)%nat) as [|Hshort]; [lia|].
        rewrite drop_ge in Hp by lia. by apply elem_of_nil in Hp.
      * intros f Hf. apply list_elem_of_fmap in Hf as ([q sz] & -> & Hq).
        pose proof (sorted_app_le _ _ _ _ Hsorted Hq Hp) as Hle.
        cbn in *. unfold Qle. cbn. lia.
Qed.

Lemma largest_files_are_the_largest_witness :
  let files : list walked :=
    [("/home/u/a.log", Some 2000000); ("/home/u/b.tmp", None);
     ("/home/u/c.iso", Some 9000000); ("/home/u/d.txt", Some 1048576)] in
  ("/home/u/c.iso", Some 9000000) ∈ files ∧ 1048576 < 9000000
  ∧ (full_path <$> _get_largest_files (λ p, p) (Some files))
    = ["/home/u/c.iso"; "/home/u/a.log"].
Proof.
  intros files.
  assert (Hin : ("/home/u/c.iso", Some 9000000) ∈ files).
  { apply (proj1 (bool_decide_eq_true _)). vm_compute. reflexivity. }
  split; [exact Hin|]. split; [lia|].
  destruct (largest_files_are_the_largest (λ p, p) files) as (_ & _ & _ & Hall).
  destruct (Hall _ _ Hin ltac:(lia)) as [_|_]; vm_compute; reflexivity.
Defined.

(** *** Disk readings *)

(** X20. [_get_disk_usage] reports 35 percent whatever the platform and
    the file system are. On Linux it reads [statvfs.f_available], an
    attribute that [os.statvfs_result] does not have, so the [try] always
    ends in the handler; elsewhere it does not measure at all. *)
Theorem disk_usage_is_always_35
    (platform_system : string) (statvfs_root : result statvfs_result) :
  _get_disk_usage platform_system statvfs_root = 35 # 1.
Proof.
  unfold _get_disk_usage.
  destruct (bool_decide (lower platform_system = "linux")); [|done].
  destruct statvfs_root as [st|e]; [|done].
  unfold and_then at 1.
  assert (Hfr : getattr st "f_frsize" = Ok (f_frsize st)) by reflexivity.
  assert (Hbl : getattr st "f_blocks" = Ok (f_blocks st)) by reflexivity.
  assert (Hav : getattr st "f_available" = Exn "AttributeError")
    by reflexivity.
  rewrite Hfr, Hbl, Hav. reflexivity.
Qed.

Lemma usage_of_range (total_size : Z) (st : statvfs_result) :
  0 < total_size →
  (0 <= fst (usage_of total_size st))%Q
  ∧ (fst (usage_of total_size st) <= 100 # 1)%Q
  ∧ snd (usage_of total_size st) = total_size.
Proof.
  intros Htotal. unfold usage_of. cbn [fst snd].
  set (available_space := f_frsize st * f_bavail st).
  assert (Hpercent :
    (0 <= (if 0 <? available_space
           then inject_Z total_size
                / inject_Z (total_size + available_space) * (100 # 1)
           else 0))%Q).
  { destruct (0 <? available_space) eqn:Havail; [|lra].
    apply Z.ltb_lt in Havail.
    assert (Hx : (0 < inject_Z total_size)%Q).
    { change 0%Q with (inject_Z 0). by rewrite <- Zlt_Qlt. }
    assert (Hy : (0 < inject_Z (total_size + available_space))%Q).
    { change 0%Q with (inject_Z 0). rewrite <- Zlt_Qlt. lia. }
    apply Qmult_le_0_compat; [|lra].
    apply Qle_shift_div_l; [exact Hy|]. lra. }
  split; [|split; [|done]].
  - destruct (Qlt_bool_spec (100 # 1)
               (if 0 <? available_space
                then inject_Z total_size
                     / inject_Z (total_size + available_space) * (100 # 1)
                else 0)%Q) as [[-> ?]|[-> ?]]; [lra|exact Hpercent].
  - destruct (Qlt_bool_spec (100 # 1)
               (if 0 <? available_space
                then inject_Z total_size
                     / inject_Z (total_size + available_space) * (100 # 1)
                else 0)%Q) as [[-> ?]|[-> ?]]; [lra|done].
Qed.

Lemma method_range (total_size : Z) (r : result statvfs_result)
    (reading : Q * Z) :
  (if 0 <? total_size
   then and_then r (λ statvfs, Ok (usage_of total_size statvfs))
   else Ok (0%Q, 0)) = Ok reading →
  (0 <= fst reading)%Q ∧ (fst reading <= 100 # 1)%Q ∧ 0 ≤ snd reading
  ∧ (snd reading = 0 → fst reading = 0%Q).
Proof.
  destruct (0 <? total_size) eqn:Htotal.
  - apply Z.ltb_lt in Htotal. destruct r as [st|e]; [|done].
    cbn [and_then]. intros [= <-].
    destruct (usage_of_range total_size st Htotal) as (H0 & H100 & ->).
    split; [done|]. split; [done|]. split; lia.
  - intros [= <-]. cbn. split; [lra|]. split; [lra|]. done.
Qed.

(** X21. Whatever the system answers, [_get_user_disk_usage] returns a
    percentage between 0 and 100 and a size that is not negative, and a
    size of 0 always comes with 0 percent. *)
Theorem user_disk_usage_in_range (u : user_dir) :
  let reading := _get_user_disk_usage u in
  (0 <= fst reading)%Q ∧ (fst reading <= 100 # 1)%Q ∧ 0 ≤ snd reading
  ∧ (snd reading = 0 → fst reading = 0%Q).
Proof.
  intros reading. unfold reading, _get_user_disk_usage.
  assert (Hzero : (0 <= fst (0%Q, 0))%Q ∧ (fst (0%Q, 0) <= 100 # 1)%Q
                  ∧ 0 ≤ snd (0%Q, 0)
                  ∧ (snd (0%Q, 0) = 0 → fst (0%Q, 0) = 0%Q)).
  { cbn. split; [lra|]. split; [lra|]. done. }
  destruct (du_method u) as [r|e] eqn:Hdu.
  - unfold du_method in Hdu.
    destruct (path_exists u); [|by injection Hdu as <-].
    destruct (du u) as [res|e]; [|done]. cbn [and_then] in Hdu.
    destruct (returncode res =? 0); [|by injection Hdu as <-].
    destruct (stdout_size res) as [total_size|e]; [|done].
    cbn [and_then] in Hdu. by apply method_range in Hdu.
  - destruct (walk_method u) as [r|e'] eqn:Hwalk; [|exact Hzero].
    unfold walk_method in Hwalk.
    destruct (path_exists_again u); [|by injection Hwalk as <-].
    cbv zeta in Hwalk. by apply method_range in Hwalk.
Qed.

Lemma user_disk_usage_in_range_witness :
  let st := StatVfs 4096 4096 1000000 250000 250000 100 10 10 0 255 7 in
  let u := UserDir true (Ok (Du 0 (Ok 3072000000))) (Ok st) true [] (Ok st) in
  (fst (_get_user_disk_usage u) == 75 # 1)%Q
  ∧ snd (_get_user_disk_usage u) = 3072000000
  ∧ (0 <= fst (_get_user_disk_usage u))%Q
  ∧ (fst (_get_user_disk_usage u) <= 100 # 1)%Q.
Proof.
  intros st u. split; [vm_compute; reflexivity|].
  split; [vm_compute; reflexivity|].
  destruct (user_disk_usage_in_range u) as (Hlow & Hhigh & _).
  split; [exact Hlow|exact Hhigh].
Defined.

(** X22. A full user directory reads as empty: when [du] measures a
    positive size and the file system has no block left for the user, the
    function returns 0 percent with that size, and a reading taken from it
    never brings the "High User Directory Usage" suggestion. *)
Theorem full_disk_reads_zero_percent
    (u : user_dir) (r : du_result) (total_size : Z) (st : statvfs_result) :
  path_exists u = true →
  du u = Ok r → returncode r = 0 → stdout_size r = Ok total_size →
  0 < total_size →
  statvfs u = Ok st → f_bavail st = 0 →
  _get_user_disk_usage u = (0%Q, total_size)
  ∧ ∀ current_user d,
      user_disk_usage d = fst (_get_user_disk_usage u) →
      "High User Directory Usage"
        ∉ issue <$> _generate_improvements current_user d.
Proof.
  intros Hexists Hdu Hcode Hout Htotal Hst Hfull.
  assert (Hreading : _get_user_disk_usage u = (0%Q, total_size)).
  { unfold _get_user_disk_usage, du_method.
    rewrite Hexists, Hdu. cbn [and_then]. rewrite Hcode, Hout.
    cbn [and_then Z.eqb].
    destruct (0 <? total_size) eqn:Hpos; [|apply Z.ltb_ge in Hpos; lia].
    rewrite Hst. cbn [and_then]. unfold usage_of. rewrite Hfull.
    rewrite Z.mul_0_r. reflexivity. }
  split; [exact Hreading|].
  intros current_user d Hd. rewrite Hreading in Hd. cbn [fst] in Hd.
  unfold _generate_improvements. rewrite Hd.
  destruct (Qlt_bool (80 # 1) (cpu_percent d)),
           (Qlt_bool (85 # 1) (memory_percent d));
    apply (proj1 (bool_decide_eq_false _)); vm_compute; reflexivity.
Qed.

Lemma full_disk_reads_zero_percent_witness :
  let st := StatVfs 4096 4096 1000000 0 0 100 10 10 0 255 7 in
  let u := UserDir true (Ok (Du 0 (Ok 5000000000))) (Ok st) true [] (Ok st) in
  path_exists u = true ∧ f_bavail st = 0
  ∧ _get_user_disk_usage u = (0%Q, 5000000000).
Proof.
  intros st u.
  assert (Hexists : path_exists u = true) by reflexivity.
  assert (Hfull : f_bavail st = 0) by reflexivity.
  split; [exact Hexists|]. split; [exact Hfull|].
  exact (proj1 (full_disk_reads_zero_percent u (Du 0 (Ok 5000000000))
                  5000000000 st Hexists eq_refl eq_refl eq_refl
                  ltac:(lia) eq_refl Hfull)).
Defined.

(** X23. The walk over the files is a fallback for exceptions only. When
    [du] exits with a return code other than 0, the function reports 0
    percent and 0 bytes whatever the walk would find; when [du] cannot be
    run at all, the reading is that of the walk: the sum of the sizes that
    can be read, against the space available. *)
Theorem du_error_code_skips_the_walk (u : user_dir) :
  (∀ r, path_exists u = true → du u = Ok r → returncode r ≠ 0 →
        _get_user_disk_usage u = (0%Q, 0))
  ∧ (∀ e st, path_exists u = true → du u = Exn e →
        path_exists_again u = true → statvfs_again u = Ok st →
        0 < walk_total (walk_files u) →
        _get_user_disk_usage u = usage_of (walk_total (walk_files u)) st).
Proof.
  split.
  - intros r Hexists Hdu Hcode.
    unfold _get_user_disk_usage, du_method.
    rewrite Hexists, Hdu. cbn [and_then].
    by destruct (Z.eqb_spec (returncode r) 0).
  - intros e st Hexists Hdu Hagain Hst Hpos.
    unfold _get_user_disk_usage, du_method, walk_method.
    rewrite Hexists, Hdu, Hagain, Hst. cbn [and_then]. cbv zeta.
    destruct (0 <? walk_total (walk_files u)) eqn:Hlt; [done|].
    apply Z.ltb_ge in Hlt. lia.
Qed.

Lemma du_error_code_skips_the_walk_witness :
  let st := StatVfs 4096 4096 1000000 500000 500000 100 10 10 0 255 7 in
  let u := UserDir true (Ok (Du 1 (Ok 5000000000))) (Ok st) true
             [("/users/u/a.bin", Some 2048000000)] (Ok st) in
  path_exists u = true ∧ returncode (Du 1 (Ok 5000000000)) ≠ 0
  ∧ 0 < walk_total (walk_files u)
  ∧ _get_user_disk_usage u = (0%Q, 0).
Proof.
  intros st u.
  assert (Hexists : path_exists u = true) by reflexivity.
  assert (Hcode : returncode (Du 1 (Ok 5000000000)) ≠ 0) by (cbn; lia).
  split; [exact Hexists|]. split; [exact Hcode|].
  split; [vm_compute; reflexivity|].
  exact (proj1 (du_error_code_skips_the_walk u) _ Hexists eq_refl Hcode).
Defined.

End SystemMonitorProofs.
